(** * exengine: skeletal animation of a model (src/exengine/model.c)

    A shallow embedding of the animation part of [model.c]: playback
    advancement ([model_update]), clip selection ([model_set_anim]), pose
    blending ([mix_pose], [model_set_pose]) and skeleton composition
    ([model_update_matrices], [calc_bone_matrix]).

    - C [float] values are IEEE-754 binary32 numbers, given by the standard
      library's [SpecFloat] at precision 24 and maximal exponent 128.
    - [uint32_t] and [int] values are integers of [Z] with the wrap-around
      written out ([u32], [s32]).
    - Arrays are lists; reading or writing outside an array, reading an
      uninitialised matrix and converting an out-of-range [float] to an
      integer are undefined behaviour in C and yield [None] here. *)

From Stdlib Require Import ZArith Bool Lia.
From Stdlib Require Import Floats.SpecFloat.
From stdpp Require Import base option list.

Local Open Scope Z_scope.

(** ** Machine integers *)

Definition u32 (z : Z) : Z := z mod 2 ^ 32.

Definition s32 (z : Z) : Z := (z + 2 ^ 31) mod 2 ^ 32 - 2 ^ 31.

(** ** Single-precision floats *)

Module F32.

Definition prec : Z := 24.
Definition emax : Z := 128.

Definition float : Type := spec_float.

Definition zero : float := S754_zero false.
Definition one : float := SFone prec emax.

Definition add : float -> float -> float := SFadd prec emax.
Definition sub : float -> float -> float := SFsub prec emax.
Definition mul : float -> float -> float := SFmul prec emax.
Definition div : float -> float -> float := SFdiv prec emax.

Definition ltb : float -> float -> bool := SFltb.
Definition leb : float -> float -> bool := SFleb.

(** Conversion of an integer to [float], rounding to nearest even. *)
Definition of_Z (n : Z) : float := binary_normalize prec emax n 0 false.

(** The integral part of a finite float, fraction discarded. *)
Definition integral (x : float) : option Z :=
  match x with
  | S754_zero _ => Some 0
  | S754_finite s m e =>
      let mag := Z.shiftl (Zpos m) e in
      Some (if s then - mag else mag)
  | S754_infinity _ | S754_nan => None
  end.

(** [(uint32_t) x]: defined when the integral part fits the type. *)
Definition to_u32 (x : float) : option Z :=
  n ← integral x;
  if (0 <=? n) && (n <? 2 ^ 32) then Some n else None.

(** [(float) floor(x)] for a [float] argument: the argument widens to
    [double] exactly, and the floor of a binary32 value is again a
    binary32 value. *)
Definition floor (x : float) : float :=
  match x with
  | S754_finite s m e =>
      if 0 <=? e then x
      else
        let q := Z.shiftl (Zpos m) e in
        if Z.shiftl q (- e) =? Zpos m then x
        else if s then binary_normalize prec emax (- (q + 1)) 0 true
        else binary_normalize prec emax q 0 false
  | _ => x
  end.

End F32.

Abbreviation float := F32.float.

(** ** The math header *)

(** Modelled from the spec: the vector, quaternion and matrix primitives
    ([vec3_lerp], [quat_slerp], [quat_norm], [mat4x4_identity],
    [mat4x4_mul], [mat4x4_scale_xyz], [mat4x4_rotate_quat],
    [mat4x4_translate]) and the types [vec3], [quat] and [mat4x4] come from
    the math header, which is not part of [model.c].  The spec takes them as
    an available library: component-wise linear interpolation, spherical
    interpolation, renormalisation, 4x4 matrix product and the three
    elementary transforms.  Each C routine writes its first argument from
    the remaining ones, and is a function of those here. *)
Class LinMath : Type := {
  vec3 : Type;
  quat : Type;
  mat4x4 : Type;
  vec3_lerp : vec3 -> vec3 -> float -> vec3;
  quat_slerp : quat -> quat -> float -> quat;
  quat_norm : quat -> quat;
  mat4x4_identity : mat4x4;
  mat4x4_mul : mat4x4 -> mat4x4 -> mat4x4;
  mat4x4_scale_xyz : vec3 -> mat4x4;
  mat4x4_rotate_quat : quat -> mat4x4;
  mat4x4_translate : vec3 -> mat4x4
}.

(** Modelled from the spec: the [MIN] and [MAX] macros of the missing
    header, in their usual conditional-expression form; the spec says the
    blend weight is clamped to [0,1]. *)
Definition MAX (a b : float) : float := if F32.ltb b a then a else b.
Definition MIN (a b : float) : float := if F32.ltb a b then a else b.

(** ** Data model *)

(** Modelled from the spec: the structures of [model.h], which is not part
    of the sources; only the fields [model.c] touches are kept.  A clip has
    a first and last frame ([uint32_t]), a rate ([float]) and a loop flag; a
    bone has a parent index ([int], negative for a root). *)
Record anim_t : Type := {
  first : Z;
  last : Z;
  rate : float;
  loop : bool
}.

Record bone_t : Type := { parent : Z }.

Section Model.

Context `{LM : LinMath}.

Record pose_t : Type := {
  translate : vec3;
  rotate : quat;
  scale : vec3
}.

(** [frame_t] is a pointer to one pose entry per bone. *)
Abbreviation frame_t := (list pose_t).

Record mesh_t : Type := {
  mesh_position : vec3;
  mesh_rotation : vec3;
  mesh_scale : float;
  mesh_is_lit : Z
}.

(** [current_anim] is [NULL] or a pointer [&anims[i]], kept as the index
    [i]; [anims_len] and [bones_len] are fields of their own, as in C.  The
    field [scale] of the model is [model_scale] here, and the fields of a
    mesh carry the prefix [mesh_], since a record field is a global name. *)
Record model_t : Type := {
  mesh_list : list mesh_t;
  position : vec3;
  rotation : vec3;
  model_scale : float;
  is_shadow : Z;
  is_lit : Z;
  bones : list bone_t;
  bones_len : nat;
  anims : list anim_t;
  anims_len : nat;
  frames : list frame_t;
  pose : frame_t;
  inverse_base : list mat4x4;
  skeleton : list mat4x4;
  current_anim : option nat;
  current_time : float;
  current_frame : Z
}.

Definition with_mesh_list (ms : list mesh_t) (m : model_t) : model_t :=
  {| mesh_list := ms; position := position m; rotation := rotation m;
     model_scale := model_scale m; is_shadow := is_shadow m;
     is_lit := is_lit m; bones := bones m; bones_len := bones_len m;
     anims := anims m; anims_len := anims_len m; frames := frames m;
     pose := pose m; inverse_base := inverse_base m;
     skeleton := skeleton m; current_anim := current_anim m;
     current_time := current_time m; current_frame := current_frame m |}.

Definition with_pose (p : frame_t) (m : model_t) : model_t :=
  {| mesh_list := mesh_list m; position := position m;
     rotation := rotation m; model_scale := model_scale m;
     is_shadow := is_shadow m; is_lit := is_lit m; bones := bones m;
     bones_len := bones_len m; anims := anims m;
     anims_len := anims_len m; frames := frames m; pose := p;
     inverse_base := inverse_base m; skeleton := skeleton m;
     current_anim := current_anim m; current_time := current_time m;
     current_frame := current_frame m |}.

Definition with_skeleton (sk : list mat4x4) (m : model_t) : model_t :=
  {| mesh_list := mesh_list m; position := position m;
     rotation := rotation m; model_scale := model_scale m;
     is_shadow := is_shadow m; is_lit := is_lit m; bones := bones m;
     bones_len := bones_len m; anims := anims m;
     anims_len := anims_len m; frames := frames m; pose := pose m;
     inverse_base := inverse_base m; skeleton := sk;
     current_anim := current_anim m; current_time := current_time m;
     current_frame := current_frame m |}.

Definition with_anim (a : option nat) (m : model_t) : model_t :=
  {| mesh_list := mesh_list m; position := position m;
     rotation := rotation m; model_scale := model_scale m;
     is_shadow := is_shadow m; is_lit := is_lit m; bones := bones m;
     bones_len := bones_len m; anims := anims m;
     anims_len := anims_len m; frames := frames m; pose := pose m;
     inverse_base := inverse_base m; skeleton := skeleton m;
     current_anim := a; current_time := current_time m;
     current_frame := current_frame m |}.

Definition with_playback (t : float) (f : Z) (m : model_t) : model_t :=
  {| mesh_list := mesh_list m; position := position m;
     rotation := rotation m; model_scale := model_scale m;
     is_shadow := is_shadow m; is_lit := is_lit m; bones := bones m;
     bones_len := bones_len m; anims := anims m;
     anims_len := anims_len m; frames := frames m; pose := pose m;
     inverse_base := inverse_base m; skeleton := skeleton m;
     current_anim := current_anim m; current_time := t;
     current_frame := f |}.

(** ** Loops and array access *)

(** [for (int i = i0; i < i0 + n; i++) body], over a state [S]. *)
Fixpoint for_loop {St : Type} (body : nat -> St -> option St)
    (i n : nat) (s : St) : option St :=
  match n with
  | O => Some s
  | S n' => s' ← body i s; for_loop body (S i) n' s'
  end.

(** [a[i] = x], undefined outside the array. *)
Definition store {A : Type} (l : list A) (i : nat) (x : A)
    : option (list A) :=
  if decide (i < length l)%nat then Some (<[i := x]> l) else None.

(** [a[z]] for an integer index, undefined outside the array. *)
Definition at_index {A : Type} (l : list A) (z : Z) : option A :=
  if z <? 0 then None else l !! Z.to_nat z.

(** ** Playback: lines 49-74 of [model_update] *)

(** What the playback arithmetic hands over to the rest of
    [model_update]: an early return, or the new [current_time] and
    [current_frame] with the frame to blend towards and the weight. *)
Inductive tick : Type :=
| Hold
| Step (time : float) (frame : Z) (next_frame : Z) (weight : float).

Definition playback (anim : anim_t) (time delta_time : float)
    : option tick :=
  current_frame ← F32.to_u32 (F32.mul time (rate anim));
  let len := u32 (last anim + first anim) in
  let position := F32.mul time (rate anim) in
  if (len <? current_frame) && negb (loop anim) then Some Hold
  else
    let time1 := F32.add time delta_time in
    let frame1 := u32 (first anim + current_frame) in
    let next_frame := s32 (u32 (frame1 + 1)) in
    '(time2, frame2) ←
      (if len <=? frame1 then
         if loop anim then
           let time_wrapped :=
             F32.sub time1 (F32.div (F32.of_Z len) (rate anim)) in
           let time_reset := F32.zero in
           f ← F32.to_u32 (F32.add (F32.of_Z (first anim))
                                    (F32.mul time_reset (rate anim)));
           Some (time_reset, f)
         else Some (time1, last anim)
       else Some (time1, frame1));
    let next_frame :=
      if len <=? u32 next_frame then s32 (first anim) else next_frame in
    Some (Step time2 frame2 next_frame
               (F32.sub position (F32.floor position))).

(** ** Pose blending *)

(** Iteration [i] reads entry [i] of the two frames and writes entry [i] of
    the pose buffer only, so the frames are taken as values, also when one
    of them is the pose buffer itself. *)
Definition mix_pose (m : model_t) (a b : frame_t) (weight : float)
    : option model_t :=
  let weight := MIN (MAX weight F32.zero) F32.one in
  p ← for_loop (fun i p =>
         ai ← a !! i;
         bi ← b !! i;
         let t := vec3_lerp (translate ai) (translate bi) weight in
         let r := quat_norm (quat_slerp (rotate ai) (rotate bi) weight) in
         let s := vec3_lerp (scale ai) (scale bi) weight in
         store p i {| translate := t; rotate := r; scale := s |})
       0%nat (bones_len m) (pose m);
  Some (with_pose p m).

Definition model_set_pose (m : model_t) (frame : frame_t)
    : option model_t :=
  p ← for_loop (fun i p =>
         f ← frame !! i;
         let rotate := quat_norm (rotate f) in
         store p i {| translate := translate f; rotate := rotate;
                      scale := scale f |})
       0%nat (bones_len m) (pose m);
  Some (with_pose p m).

(** ** Skeleton composition *)

Definition calc_bone_matrix (pos : vec3) (rot : quat) (scale : vec3)
    : mat4x4 :=
  let m := mat4x4_identity in
  let mat := mat4x4_scale_xyz scale in
  let m := mat4x4_mul m mat in
  let mat := mat4x4_rotate_quat rot in
  let m := mat4x4_mul m mat in
  let mat := mat4x4_translate pos in
  mat4x4_mul m mat.

(** One iteration of the loop of [model_update_matrices].  The local
    array [transform] starts uninitialised: [None] entries. *)
Definition update_bone (m : model_t) (i : nat)
    (st : list (option mat4x4) * list mat4x4)
    : option (list (option mat4x4) * list mat4x4) :=
  let '(transform, sk) := st in
  b ← bones m !! i;
  p ← pose m !! i;
  let mat := calc_bone_matrix (translate p) (rotate p) (scale p) in
  inv ← inverse_base m !! i;
  '(ti, result) ←
    (if 0 <=? parent b then
       tp ← mjoin (at_index transform (parent b));
       let ti := mat4x4_mul mat tp in
       Some (ti, mat4x4_mul inv ti)
     else Some (mat, mat4x4_mul inv mat));
  transform' ← store transform i (Some ti);
  sk' ← store sk i result;
  Some (transform', sk').

Definition model_update_matrices (m : model_t) : option model_t :=
  let transform := replicate (bones_len m) None in
  st ← for_loop (update_bone m) 0%nat (bones_len m)
                (transform, skeleton m);
  Some (with_skeleton st.2 m).

(** ** Clip selection and the tick *)

Definition model_set_anim (m : model_t) (index : nat) : option model_t :=
  if decide (anims_len m < index)%nat then Some (with_anim None m)
  else
    let m := with_anim (Some index) m in
    anim ← anims m !! index;
    Some (with_playback F32.zero (first anim) m).

(** The body of the walk over [mesh_list]; the list holds the meshes up to
    the node without data. *)
Definition update_mesh (m : model_t) (mesh : mesh_t) : mesh_t :=
  {| mesh_position := position m; mesh_rotation := rotation m;
     mesh_scale := model_scale m; mesh_is_lit := is_lit m |}.

Definition model_update (m : model_t) (delta_time : float)
    : option model_t :=
  let m := with_mesh_list (update_mesh m <$> mesh_list m) m in
  match current_anim m with
  | None => Some m
  | Some i =>
      anim ← anims m !! i;
      t ← playback anim (current_time m) delta_time;
      match t with
      | Hold => Some m
      | Step time frame next_frame weight =>
          let m := with_playback time frame m in
          a ← at_index (frames m) frame;
          b ← at_index (frames m) next_frame;
          m ← mix_pose m a b weight;
          model_update_matrices m
      end
  end.

End Model.

Arguments pose_t {LM}.
Arguments mesh_t {LM}.
Arguments model_t {LM}.

Abbreviation frame_t := (list pose_t).

(** * Vocabulary of the properties

    Names for the values the code computes along the way, the per-bone
    results in the words of the specification (sections 4.2 and 4.3), to
    compare the loops with, and the conditions a loaded model meets. *)

Section Vocabulary.

Context `{LM : LinMath}.

(** The clamp of [mix_pose]. *)
Definition clamp01 (w : float) : float := MIN (MAX w F32.zero) F32.one.

(** The frame to blend towards, as lines 59 and 72-74 compute it. *)
Definition next_of (anim : anim_t) (frame : Z) : Z :=
  if u32 (last anim + first anim) <=? u32 (frame + 1)
  then s32 (first anim) else s32 (u32 (frame + 1)).

Definition weight_of (position : float) : float :=
  F32.sub position (F32.floor position).

(** [current_frame] as line 66 recomputes it after the reset of
    [current_time]. *)
Definition reset_frame (anim : anim_t) : option Z :=
  F32.to_u32 (F32.add (F32.of_Z (first anim))
                      (F32.mul F32.zero (rate anim))).

(** The blended entry of one bone: linear interpolation of translation
    and scale, spherical interpolation then renormalisation of the
    rotation. *)
Definition blend_entry (w : float) (a b : pose_t) : pose_t :=
  {| translate := vec3_lerp (translate a) (translate b) w;
     rotate := quat_norm (quat_slerp (rotate a) (rotate b) w);
     scale := vec3_lerp (scale a) (scale b) w |}.

(** The entry [model_set_pose] stores for one bone. *)
Definition set_entry (f : pose_t) : pose_t :=
  {| translate := translate f; rotate := quat_norm (rotate f);
     scale := scale f |}.

(** The local matrix of a pose entry: identity, then scale, rotation and
    translation multiplied on in that order. *)
Definition local_matrix (p : pose_t) : mat4x4 :=
  mat4x4_mul
    (mat4x4_mul
       (mat4x4_mul mat4x4_identity (mat4x4_scale_xyz (scale p)))
       (mat4x4_rotate_quat (rotate p)))
    (mat4x4_translate (translate p)).

(** The world transform of bone [i], following the parent chain: the
    local matrix of a root, the local matrix composed with the parent's
    world transform otherwise.  [fuel] bounds the length of the chain. *)
Fixpoint world_transform (m : model_t) (fuel i : nat) : option mat4x4 :=
  match fuel with
  | O => None
  | S fuel' =>
      b ← bones m !! i;
      p ← pose m !! i;
      if 0 <=? parent b then
        w ← world_transform m fuel' (Z.to_nat (parent b));
        Some (mat4x4_mul (local_matrix p) w)
      else Some (local_matrix p)
  end.

Definition skinning_matrix (m : model_t) (i : nat) : option mat4x4 :=
  inv ← inverse_base m !! i;
  w ← world_transform m (S i) i;
  Some (mat4x4_mul inv w).

(** The per-bone arrays hold at least [bones_len] entries. *)
Definition arrays_fit (m : model_t) : Prop :=
  (bones_len m <= length (bones m))%nat /\
  (bones_len m <= length (pose m))%nat /\
  (bones_len m <= length (inverse_base m))%nat /\
  (bones_len m <= length (skeleton m))%nat.

(** Every parent precedes its children. *)
Definition ancestor_first (m : model_t) : Prop :=
  forall i b, (i < bones_len m)%nat -> bones m !! i = Some b ->
    parent b < Z.of_nat i.

(** A loaded model: the per-bone arrays fit, parents precede children and
    every frame has an entry per bone. *)
Definition well_formed (m : model_t) : Prop :=
  arrays_fit m /\ ancestor_first m /\
  Forall (fun fr : frame_t => (bones_len m <= length fr)%nat) (frames m).

(** The frames a tick blends are frames of the model. *)
Definition frames_in_range (m : model_t) (anim : anim_t) (dt : float)
    : Prop :=
  forall t' f' nf w,
    playback anim (current_time m) dt = Some (Step t' f' nf w) ->
    is_Some (at_index (frames m) f') /\ is_Some (at_index (frames m) nf).

End Vocabulary.

(** Modelled from the spec: [quat_norm] belongs to the missing math
    header.  The spec calls it renormalisation and requires rotations to be
    unit-length after any write; [unit_length] is that property and
    [quat_norm_unit] the contract of [quat_norm]. *)
Class NormContract `{LM : LinMath} : Type := {
  unit_length : quat -> Prop;
  quat_norm_unit : forall q : quat, unit_length (quat_norm q)
}.

(** ** A term instance of the math header

    The primitives as free constructors: every vector, quaternion and
    matrix is the expression that computes it.  It is used to run the
    embedded functions on concrete models. *)

Module Sym.

Inductive vec : Type :=
| V (x y z : Z)
| Lerp (a b : vec) (w : float).

Inductive qt : Type :=
| Q (x y z w : Z)
| Slerp (a b : qt) (w : float)
| Norm (q : qt).

Inductive mat : Type :=
| Id
| Bind (i : nat)
| Mul (a b : mat)
| ScaleXYZ (v : vec)
| Rotate (q : qt)
| Translate (v : vec).

#[export] Instance lin_math : LinMath := {|
  vec3 := vec;
  quat := qt;
  mat4x4 := mat;
  vec3_lerp := Lerp;
  quat_slerp := Slerp;
  quat_norm := Norm;
  mat4x4_identity := Id;
  mat4x4_mul := Mul;
  mat4x4_scale_xyz := ScaleXYZ;
  mat4x4_rotate_quat := Rotate;
  mat4x4_translate := Translate
|}.

(** A model without bones or meshes over the given clips and a number of
    (empty) frames. *)
Definition boneless (clips : list anim_t) (nframes : nat)
    (anim : option nat) (time : float) (frame : Z) : model_t :=
  {| mesh_list := []; position := V 0 0 0; rotation := V 0 0 0;
     model_scale := F32.one; is_shadow := 1; is_lit := 1;
     bones := []; bones_len := 0;
     anims := clips; anims_len := length clips;
     frames := replicate nframes []; pose := [];
     inverse_base := []; skeleton := [];
     current_anim := anim; current_time := time;
     current_frame := frame |}.

(** The pose entry numbered [n]. *)
Definition entry (n : Z) : pose_t :=
  {| translate := V n 0 0; rotate := Q 0 0 n 1; scale := V 1 1 n |}.

(** A two-bone chain (root and child) with two frames. *)
Definition chain : model_t :=
  {| mesh_list := [ {| mesh_position := V 9 9 9; mesh_rotation := V 9 9 9;
                       mesh_scale := F32.zero; mesh_is_lit := 0 |} ];
     position := V 1 2 3; rotation := V 0 0 0;
     model_scale := F32.one; is_shadow := 1; is_lit := 1;
     bones := [ {| parent := -1 |}; {| parent := 0 |} ]; bones_len := 2;
     anims := [ {| first := 0; last := 1; rate := F32.one;
                   loop := false |} ];
     anims_len := 1;
     frames := [ [entry 0; entry 1]; [entry 2; entry 3] ];
     pose := [entry 4; entry 5];
     inverse_base := [Bind 0; Bind 1]; skeleton := [Id; Id];
     current_anim := None; current_time := F32.zero;
     current_frame := 0 |}.

#[export] Instance norm_contract : @NormContract lin_math := {|
  unit_length := fun q : @quat lin_math => exists q0 : qt, q = Norm q0;
  quat_norm_unit := fun q : @quat lin_math => ex_intro _ q eq_refl
|}.

Definition idle_clip : anim_t :=
  {| first := 0; last := 4; rate := F32.one; loop := true |}.

(** The second clip of a model: frames 5 to 10 at one frame a second. *)
Definition walk (looping : bool) : anim_t :=
  {| first := 5; last := 10; rate := F32.one; loop := looping |}.

(** A clip that starts at frame 2^24 + 1. *)
Definition far : anim_t :=
  {| first := 16777217; last := 16777220; rate := F32.one; loop := true |}.

(** A model with one clip whose clip array has room for a second one. *)
Definition spare : model_t :=
  {| mesh_list := []; position := V 0 0 0; rotation := V 0 0 0;
     model_scale := F32.one; is_shadow := 1; is_lit := 1;
     bones := []; bones_len := 0;
     anims := [walk true; idle_clip]; anims_len := 1;
     frames := replicate 16 []; pose := [];
     inverse_base := []; skeleton := [];
     current_anim := None; current_time := F32.zero;
     current_frame := 0 |}.

(** [n] ticks of [dt] seconds. *)
Fixpoint ticks (n : nat) (dt : float) (m : model_t) : option model_t :=
  match n with
  | O => Some m
  | S n' => m' ← model_update m dt; ticks n' dt m'
  end.

End Sym.

(** * The rest of [model.c]

    The mesh list as the three walks of [model_update], [model_draw] and
    [model_destroy] read it, the constructor [model_new] and a run of
    ticks. *)


Section Rest.

Context `{LM : LinMath}.

(** A node of the mesh list, with the two fields the walks read: [data],
    which can be [NULL], and [next], which is [NULL] on [Last]. *)
Inductive list_node_t : Type :=
| Last (data : option mesh_t)
| Link (data : option mesh_t) (next : list_node_t).

(** The walk of lines 27-40: it stops at the first node without data and
    after the node without successor. *)
Fixpoint update_meshes (m : model_t) (n : list_node_t) : list_node_t :=
  match n with
  | Last None => n
  | Last (Some mesh) => Last (Some (update_mesh m mesh))
  | Link None _ => n
  | Link (Some mesh) next =>
      Link (Some (update_mesh m mesh)) (update_meshes m next)
  end.

(** The meshes a walk reaches, in order. *)
Fixpoint reached (n : list_node_t) : list mesh_t :=
  match n with
  | Last None => []
  | Last (Some mesh) => [mesh]
  | Link None _ => []
  | Link (Some mesh) next => mesh :: reached next
  end.

(** The data of all the nodes of a list. *)
Fixpoint node_data (n : list_node_t) : list (option mesh_t) :=
  match n with
  | Last d => [d]
  | Link d next => d :: node_data next
  end.

(** [model_new]: [zero3] is the vector of zeros that [memset] leaves,
    [meshes] what [list_new] returns, and [rest] the content of the
    allocation, which stays in the fields that are not assigned. *)
Definition model_new (zero3 : vec3) (meshes : list mesh_t) (rest : model_t)
    : model_t :=
  {| mesh_list := meshes;
     position := zero3;
     rotation := zero3;
     model_scale := F32.one;
     is_shadow := 1;
     is_lit := 1;
     bones := bones rest; bones_len := bones_len rest;
     anims := anims rest; anims_len := anims_len rest;
     frames := frames rest; pose := pose rest;
     inverse_base := inverse_base rest; skeleton := skeleton rest;
     current_anim := None;
     current_time := F32.zero;
     current_frame := 0 |}.

(** One call of [model_update] for each of the given delta times. *)
Fixpoint model_updates (m : model_t) (dts : list float) : option model_t :=
  match dts with
  | [] => Some m
  | dt :: dts' => m' ← model_update m dt; model_updates m' dts'
  end.


(** The data a tick cannot change. *)
Definition same_tables (m m' : model_t) : Prop :=
  bones m' = bones m /\ bones_len m' = bones_len m /\
  anims m' = anims m /\ anims_len m' = anims_len m /\
  frames m' = frames m /\ inverse_base m' = inverse_base m /\
  current_anim m' = current_anim m /\
  position m' = position m /\ rotation m' = rotation m /\
  model_scale m' = model_scale m /\
  is_shadow m' = is_shadow m /\ is_lit m' = is_lit m /\
  length (pose m') = length (pose m) /\
  length (skeleton m') = length (skeleton m).

End Rest.

Arguments list_node_t {LM}.

Module Fixtures.

Import Sym.

(** A well-formed model: the two bones of [chain], three frames and a clip
    over frames 0 to 2. *)
Definition biped (looping : bool) (anim : option nat) (time : float)
    (frame : Z) : model_t :=
  {| mesh_list := [ {| mesh_position := V 9 9 9; mesh_rotation := V 9 9 9;
                       mesh_scale := F32.zero; mesh_is_lit := 0 |} ];
     position := V 1 2 3; rotation := V 0 0 0;
     model_scale := F32.one; is_shadow := 1; is_lit := 1;
     bones := [ {| parent := -1 |}; {| parent := 0 |} ]; bones_len := 2;
     anims := [ {| first := 0; last := 2; rate := F32.one;
                   loop := looping |} ];
     anims_len := 1;
     frames := [ [entry 0; entry 1]; [entry 2; entry 3];
                 [entry 4; entry 5] ];
     pose := [entry 6; entry 7];
     inverse_base := [Bind 0; Bind 1]; skeleton := [Id; Id];
     current_anim := anim; current_time := time;
     current_frame := frame |}.

(** Two meshes, a node without data, and a mesh behind it. *)
Definition mesh_of (n : Z) : mesh_t :=
  {| mesh_position := V n n n; mesh_rotation := V 0 0 n;
     mesh_scale := F32.zero; mesh_is_lit := 0 |}.

Definition gapped : list_node_t :=
  Link (Some (mesh_of 1))
    (Link (Some (mesh_of 2)) (Link None (Last (Some (mesh_of 3))))).

End Fixtures.


(** * Properties *)

(** ** Machine integers *)

Lemma u32_range z : 0 <= u32 z < 2 ^ 32.
Proof. unfold u32. apply Z.mod_pos_bound. lia. Qed.

Lemma u32_small z : 0 <= z < 2 ^ 32 -> u32 z = z.
Proof. intros Hz. unfold u32. now apply Z.mod_small. Qed.

Lemma u32_s32 z : u32 (s32 z) = u32 z.
Proof.
  unfold u32, s32.
  rewrite Zminus_mod_idemp_l.
  f_equal. lia.
Qed.

(** ** Comparison of floats *)

Lemma SFcompare_antisym x y :
  SFcompare y x = CompOpp <$> SFcompare x y.
Proof.
  destruct x as [[]|[]| |[] mx ex], y as [[]|[]| |[] my ey];
    try reflexivity; simpl;
    rewrite (Z.compare_antisym ey ex);
    destruct (ey ?= ex); simpl; try reflexivity;
    rewrite (ZC4 my mx);
    now destruct (Pos.compare_cont Eq mx my).
Qed.

Lemma ltb_leb x y : F32.ltb x y = true -> F32.leb x y = true.
Proof.
  unfold F32.ltb, F32.leb, SFltb, SFleb.
  now destruct (SFcompare x y) as [[]|].
Qed.

Lemma ltb_asym x y : F32.ltb x y = true -> F32.ltb y x = false.
Proof.
  unfold F32.ltb, SFltb. rewrite (SFcompare_antisym x y).
  now destruct (SFcompare x y) as [[]|].
Qed.

Lemma leb_not_ltb x y :
  F32.leb x y = true -> F32.ltb x y = false -> SFeqb y x = true.
Proof.
  unfold F32.ltb, F32.leb, SFltb, SFleb, SFeqb.
  rewrite (SFcompare_antisym x y).
  now destruct (SFcompare x y) as [[]|].
Qed.

Lemma leb_eqb_refl x y : F32.leb x y = true -> SFeqb x x = true.
Proof.
  unfold F32.leb, SFleb, SFeqb.
  destruct x as [[]|[]| |[] mx ex]; try reflexivity; simpl.
  - now destruct y.
  - now rewrite Z.compare_refl, (Pos.compare_cont_refl mx Eq).
  - now rewrite Z.compare_refl, (Pos.compare_cont_refl mx Eq).
Qed.

Lemma clamp01_range w :
  F32.leb F32.zero (clamp01 w) = true /\ F32.leb (clamp01 w) F32.one = true.
Proof.
  unfold clamp01, MIN, MAX.
  destruct (F32.ltb F32.zero w) eqn:Hw.
  - destruct (F32.ltb w F32.one) eqn:H1.
    + split; now apply ltb_leb.
    + now split.
  - now split.
Qed.

Lemma clamp01_inside w :
  F32.leb F32.zero w = true -> F32.leb w F32.one = true ->
  SFeqb (clamp01 w) w = true.
Proof.
  intros H0 H1. unfold clamp01, MIN, MAX.
  destruct (F32.ltb F32.zero w) eqn:Hw.
  - destruct (F32.ltb w F32.one) eqn:Hlt.
    + now apply (leb_eqb_refl w F32.one).
    + now apply leb_not_ltb.
  - change (F32.ltb F32.zero F32.one) with true. simpl.
    destruct w as [[]|[]| |[] mw ew]; try reflexivity; discriminate.
Qed.

Lemma clamp01_below w : F32.ltb w F32.zero = true -> clamp01 w = F32.zero.
Proof.
  intros H. unfold clamp01, MIN, MAX.
  now rewrite (ltb_asym _ _ H).
Qed.

Lemma clamp01_above w : F32.ltb F32.one w = true -> clamp01 w = F32.one.
Proof.
  intros H. unfold clamp01, MIN, MAX.
  assert (Hw : F32.ltb F32.zero w = true).
  { destruct w as [[]|[]| |[] mw ew]; try reflexivity; discriminate. }
  now rewrite Hw, (ltb_asym _ _ H).
Qed.

(** ** Integers that single precision represents exactly *)

Lemma digits2_pos_lower (p : positive) :
  2 ^ (Zpos (digits2_pos p) - 1) <= Zpos p.
Proof.
  induction p as [p IH|p IH|]; simpl digits2_pos.
  - rewrite Pos2Z.inj_succ.
    replace (Z.succ (Zpos (digits2_pos p)) - 1)
      with (Z.succ (Zpos (digits2_pos p) - 1)) by lia.
    rewrite Z.pow_succ_r by lia. lia.
  - rewrite Pos2Z.inj_succ.
    replace (Z.succ (Zpos (digits2_pos p)) - 1)
      with (Z.succ (Zpos (digits2_pos p) - 1)) by lia.
    rewrite Z.pow_succ_r by lia. lia.
  - simpl. lia.
Qed.

Lemma digits2_pos_shift (p k : positive) :
  digits2_pos (Pos.iter xO p k) = (digits2_pos p + k)%positive.
Proof.
  induction k as [|k IH] using Pos.peano_ind.
  - simpl. lia.
  - rewrite Pos.iter_succ. simpl. rewrite IH. lia.
Qed.

Lemma binary_round_aux_exact (m : positive) (e : Z) :
  digits2_pos m = 24%positive -> -149 <= e <= 104 ->
  binary_round_aux 24 128 false (Zpos m) e loc_Exact
  = S754_finite false m e.
Proof.
  intros Hd He.
  unfold binary_round_aux, shr_fexp, fexp, emin.
  simpl Zdigits2. rewrite Hd.
  replace (Z.max (24 + e - 24) (3 - 128 - 24) - e) with 0 by lia.
  simpl. rewrite Hd.
  replace (Z.max (24 + e - 24) (3 - 128 - 24) - e) with 0 by lia.
  simpl. destruct (Z.leb_spec e (128 - 24)); [reflexivity | lia].
Qed.

Lemma of_Z_exact (n : Z) :
  0 <= n < 2 ^ 24 -> F32.to_u32 (F32.of_Z n) = Some n.
Proof.
  intros Hn. destruct n as [|p|p]; [reflexivity | | lia].
  pose proof (digits2_pos_lower p) as Hlow.
  assert (Hd : Zpos (digits2_pos p) <= 24).
  { destruct (Z.le_gt_cases (Zpos (digits2_pos p)) 24) as [|Hgt]; [easy|].
    assert (2 ^ 24 <= 2 ^ (Zpos (digits2_pos p) - 1))
      by (apply Z.pow_le_mono_r; lia).
    lia. }
  unfold F32.of_Z, binary_normalize, binary_round, fexp, emin,
    F32.prec, F32.emax.
  replace (Z.max (Zpos (digits2_pos p) + 0 - 24) (3 - 128 - 24))
    with (Zpos (digits2_pos p) - 24) by lia.
  unfold shl_align.
  destruct (Zpos (digits2_pos p) - 24 - 0) as [|k|k] eqn:Hk; [|lia|].
  - rewrite (binary_round_aux_exact p 0) by lia.
    unfold F32.to_u32, F32.integral. rewrite Z.shiftl_0_r. simpl.
    destruct (Z.ltb_spec (Zpos p) (2 ^ 32)); [reflexivity|lia].
  - rewrite binary_round_aux_exact.
    + unfold F32.to_u32, F32.integral.
      replace (Zpos (digits2_pos p) - 24) with (- Zpos k) by lia.
      rewrite Z.shiftl_div_pow2 by lia.
      change (PosDef.Pos.iter xO p k) with (shift_pos k p).
      rewrite shift_pos_correct, Z.pow_pos_fold, Z.opp_involutive.
      rewrite Z.mul_comm, Z.div_mul by lia.
      simpl. destruct (Z.ltb_spec (Zpos p) (2 ^ 32)); [reflexivity|lia].
    + rewrite digits2_pos_shift. lia.
    + lia.
Qed.

(** ** Loops and arrays *)

Section Generic.

Context `{LM : LinMath}.

(** Invariant rule for [for_loop]: a body that is defined on every state
    satisfying the invariant makes the whole loop defined. *)
Lemma for_loop_invariant {St : Type} (P : nat -> St -> Prop)
    (body : nat -> St -> option St) (n i : nat) (s : St) :
  P i s ->
  (forall j t, (i <= j < i + n)%nat -> P j t ->
     exists t', body j t = Some t' /\ P (S j) t') ->
  exists t, for_loop body i n s = Some t /\ P (i + n)%nat t.
Proof.
  revert i s. induction n as [|n IH]; intros i s Hs Hbody; simpl.
  - exists s. now rewrite Nat.add_0_r.
  - destruct (Hbody i s) as (s' & -> & Hs'); [lia | assumption |].
    simpl. replace (i + S n)%nat with (S i + n)%nat by lia.
    apply IH; [assumption |].
    intros j t Hj. apply Hbody. lia.
Qed.

Lemma store_lt {A : Type} (l : list A) (i : nat) (x : A) :
  (i < length l)%nat -> store l i x = Some (<[i := x]> l).
Proof.
  intros Hi. unfold store. now destruct (decide (i < length l)%nat).
Qed.

(** ** Clip selection *)

Lemma model_set_anim_rejected (m : model_t) (index : nat) :
  (anims_len m < index)%nat ->
  model_set_anim m index = Some (with_anim None m).
Proof.
  intros Hi. unfold model_set_anim.
  now destruct (decide (anims_len m < index)%nat).
Qed.

(** An index that is not rejected never leads to the idle state. *)
Lemma model_set_anim_accepted (m m' : model_t) (index : nat) :
  (index <= anims_len m)%nat ->
  model_set_anim m index = Some m' ->
  current_anim m' = Some index.
Proof.
  intros Hi. unfold model_set_anim.
  destruct (decide (anims_len m < index)%nat); [lia|].
  simpl. destruct (anims m !! index); [|discriminate].
  now intros [= <-].
Qed.

(** ** The idle tick *)

Lemma model_update_idle (m : model_t) (delta_time : float) :
  current_anim m = None ->
  model_update m delta_time
  = Some (with_mesh_list (update_mesh m <$> mesh_list m) m).
Proof. intros H. unfold model_update. simpl. now rewrite H. Qed.

(** A rejected index leaves the model idle, and the next tick then
    touches neither the playback state nor the pose buffer nor the
    skeleton. *)
Lemma model_set_anim_rejected_then_update (m : model_t) (index : nat)
    (delta_time : float) :
  (anims_len m < index)%nat ->
  exists m1 m2,
    model_set_anim m index = Some m1 /\
    current_anim m1 = None /\
    model_update m1 delta_time = Some m2 /\
    current_anim m2 = None /\
    current_time m2 = current_time m1 /\
    current_frame m2 = current_frame m1 /\
    pose m2 = pose m1 /\
    skeleton m2 = skeleton m1.
Proof.
  intros Hi. eexists _, _.
  split; [exact (model_set_anim_rejected m index Hi)|].
  split; [reflexivity|].
  split; [now apply model_update_idle|].
  now repeat split.
Qed.

(** ** Playback *)

Lemma playback_hold (anim : anim_t) (t dt : float) (e : Z) :
  F32.to_u32 (F32.mul t (rate anim)) = Some e ->
  loop anim = false ->
  u32 (last anim + first anim) < e ->
  playback anim t dt = Some Hold.
Proof.
  intros He Hl Hlt. unfold playback. rewrite He, Hl. simpl.
  destruct (Z.ltb_spec (u32 (last anim + first anim)) e); [reflexivity|lia].
Qed.

Lemma playback_step (anim : anim_t) (t dt : float) (e : Z) :
  F32.to_u32 (F32.mul t (rate anim)) = Some e ->
  (loop anim = true \/ e <= u32 (last anim + first anim)) ->
  playback anim t dt =
  '(time2, frame2) ←
    (if u32 (last anim + first anim) <=? u32 (first anim + e) then
       if loop anim then f ← reset_frame anim; Some (F32.zero, f)
       else Some (F32.add t dt, last anim)
     else Some (F32.add t dt, u32 (first anim + e)));
  Some (Step time2 frame2 (next_of anim (u32 (first anim + e)))
             (weight_of (F32.mul t (rate anim)))).
Proof.
  intros He Hadv. unfold playback. rewrite He. simpl.
  assert ((u32 (last anim + first anim) <? e) && negb (loop anim) = false)
    as ->.
  { destruct Hadv as [-> | Hle]; [apply andb_false_r|].
    destruct (Z.ltb_spec (u32 (last anim + first anim)) e); [lia|easy]. }
  unfold next_of. rewrite u32_s32.
  rewrite (u32_small (u32 _)) by apply u32_range.
  reflexivity.
Qed.

(** ** Zero times a finite rate *)

Lemma to_u32_mul_rate (t r : float) (e : Z) :
  F32.to_u32 (F32.mul t r) = Some e ->
  exists s, F32.mul F32.zero r = S754_zero s.
Proof.
  destruct r as [s|s| |s mr er]; simpl.
  - intros _. now exists s.
  - destruct t; discriminate.
  - destruct t; discriminate.
  - intros _. now exists s.
Qed.

Lemma to_u32_add_zero (x : float) (s : bool) :
  F32.to_u32 (F32.add x (S754_zero s)) = F32.to_u32 x.
Proof. destruct x as [[]|[]| |sx mx ex], s; reflexivity. Qed.

Lemma to_u32_range (x : float) (n : Z) :
  F32.to_u32 x = Some n -> 0 <= n < 2 ^ 32.
Proof.
  unfold F32.to_u32. destruct (F32.integral x) as [k|]; [|discriminate].
  simpl.
  destruct (Z.leb_spec 0 k); destruct (Z.ltb_spec k (2 ^ 32));
    simpl; intros [= <-]; lia.
Qed.

(** For a clip that starts at frame 0 an advancing tick does keep
    [current_frame] within the clip. *)
Lemma playback_frame_in_clip_from_zero (anim : anim_t) (t dt : float)
    (t' : float) (f' nf : Z) (w : float) :
  first anim = 0 -> 0 <= last anim < 2 ^ 32 ->
  playback anim t dt = Some (Step t' f' nf w) ->
  first anim <= f' <= last anim.
Proof.
  intros Hfirst Hlast Hplay.
  destruct (F32.to_u32 (F32.mul t (rate anim))) as [e|] eqn:He;
    [|unfold playback in Hplay; rewrite He in Hplay; discriminate].
  pose proof (to_u32_range _ _ He) as Hrange.
  assert (Hadv : loop anim = true \/ e <= u32 (last anim + first anim)).
  { destruct (loop anim) eqn:Hloop; [now left | right].
    destruct (Z.le_gt_cases e (u32 (last anim + first anim))); [easy|].
    rewrite (playback_hold anim t dt e He Hloop) in Hplay by lia.
    discriminate. }
  rewrite (playback_step anim t dt e He Hadv) in Hplay.
  rewrite Hfirst, Z.add_0_r, Z.add_0_l in Hplay.
  rewrite !u32_small in Hplay by lia.
  destruct (Z.leb_spec (last anim) e).
  - destruct (loop anim).
    + destruct (to_u32_mul_rate _ _ _ He) as [s Hs].
      unfold reset_frame in Hplay.
      rewrite Hs, to_u32_add_zero, Hfirst in Hplay.
      simpl in Hplay. injection Hplay as <- <- <- <-. lia.
    + simpl in Hplay. injection Hplay as <- <- <- <-. lia.
  - simpl in Hplay. injection Hplay as <- <- <- <-. lia.
Qed.

(** ** Pose writes *)

Lemma for_loop_ext {St : Type} (body1 body2 : nat -> St -> option St)
    (n i : nat) (s : St) :
  (forall j t, body1 j t = body2 j t) ->
  for_loop body1 i n s = for_loop body2 i n s.
Proof.
  intros Hext. revert i s. induction n as [|n IH]; intros i s; simpl.
  - reflexivity.
  - rewrite Hext. destruct (body2 i s); simpl; [apply IH | reflexivity].
Qed.

(** A loop that stores [f i] at index [i] for [i < n]. *)
Lemma fill_loop {A : Type} (f : nat -> option A) (n : nat) (p0 : list A) :
  (n <= length p0)%nat ->
  (forall i, (i < n)%nat -> is_Some (f i)) ->
  exists p,
    for_loop (fun i p => x ← f i; store p i x) 0 n p0 = Some p /\
    length p = length p0 /\
    (forall i, (i < n)%nat -> p !! i = f i) /\
    (forall i, (n <= i)%nat -> p !! i = p0 !! i).
Proof.
  intros Hlen Hf.
  destruct (for_loop_invariant
    (fun j p => length p = length p0 /\
                (forall i, (i < j)%nat -> p !! i = f i) /\
                (forall i, (j <= i)%nat -> p !! i = p0 !! i))
    (fun i p => x ← f i; store p i x) n 0 p0) as (p & Hp & HP).
  - split; [reflexivity | split; [intros; lia | reflexivity]].
  - intros j t Hj (Ht & Hlo & Hhi).
    destruct (Hf j) as [x Hx]; [lia|].
    rewrite Hx. simpl. rewrite store_lt by lia.
    eexists. split; [reflexivity|]. repeat split.
    + now rewrite length_insert.
    + intros i Hi. destruct (decide (i = j)) as [->|Hne].
      * rewrite list_lookup_insert_eq by lia. now symmetry.
      * rewrite list_lookup_insert_ne by lia. apply Hlo. lia.
    + intros i Hi. rewrite list_lookup_insert_ne by lia. apply Hhi. lia.
  - exists p. now split.
Qed.

Lemma mix_pose_spec (m : model_t) (a b : frame_t) (w : float) :
  (bones_len m <= length a)%nat ->
  (bones_len m <= length b)%nat ->
  (bones_len m <= length (pose m))%nat ->
  exists p,
    mix_pose m a b w = Some (with_pose p m) /\
    length p = length (pose m) /\
    (forall i, (i < bones_len m)%nat ->
       exists ai bi, a !! i = Some ai /\ b !! i = Some bi /\
         p !! i = Some (blend_entry (clamp01 w) ai bi)) /\
    (forall i, (bones_len m <= i)%nat -> p !! i = pose m !! i).
Proof.
  intros Ha Hb Hp.
  pose (f := fun i : nat =>
    ai ← a !! i; bi ← b !! i; Some (blend_entry (clamp01 w) ai bi)).
  destruct (fill_loop f (bones_len m) (pose m) Hp) as (p & Hrun & Hl & Hlo & Hhi).
  - intros i Hi. unfold f.
    destruct (lookup_lt_is_Some_2 a i) as [ai ->]; [lia|].
    destruct (lookup_lt_is_Some_2 b i) as [bi ->]; [lia|].
    simpl. eauto.
  - exists p. repeat split; try assumption.
    + unfold mix_pose.
      rewrite (for_loop_ext _ (fun i p => x ← f i; store p i x)).
      * now rewrite Hrun.
      * intros j t. unfold f.
        destruct (a !! j); simpl; [|reflexivity].
        destruct (b !! j); reflexivity.
    + intros i Hi. rewrite (Hlo i Hi). unfold f.
      destruct (lookup_lt_is_Some_2 a i) as [ai ->]; [lia|].
      destruct (lookup_lt_is_Some_2 b i) as [bi ->]; [lia|].
      exists ai, bi. now repeat split.
Qed.

Lemma model_set_pose_spec (m : model_t) (frame : frame_t) :
  (bones_len m <= length frame)%nat ->
  (bones_len m <= length (pose m))%nat ->
  exists p,
    model_set_pose m frame = Some (with_pose p m) /\
    length p = length (pose m) /\
    (forall i, (i < bones_len m)%nat ->
       exists f, frame !! i = Some f /\ p !! i = Some (set_entry f)) /\
    (forall i, (bones_len m <= i)%nat -> p !! i = pose m !! i).
Proof.
  intros Hf Hp.
  pose (g := fun i : nat => f ← frame !! i; Some (set_entry f)).
  destruct (fill_loop g (bones_len m) (pose m) Hp) as (p & Hrun & Hl & Hlo & Hhi).
  - intros i Hi. unfold g.
    destruct (lookup_lt_is_Some_2 frame i) as [fi ->]; [lia|].
    simpl. eauto.
  - exists p. repeat split; try assumption.
    + unfold model_set_pose.
      rewrite (for_loop_ext _ (fun i p => x ← g i; store p i x)).
      * now rewrite Hrun.
      * intros j t. unfold g. destruct (frame !! j); reflexivity.
    + intros i Hi. rewrite (Hlo i Hi). unfold g.
      destruct (lookup_lt_is_Some_2 frame i) as [fi ->]; [lia|].
      exists fi. now split.
Qed.

(** ** Skeleton composition *)

Lemma world_transform_mono (m : model_t) (fuel fuel' i : nat) (w : mat4x4) :
  (fuel <= fuel')%nat ->
  world_transform m fuel i = Some w ->
  world_transform m fuel' i = Some w.
Proof.
  revert fuel' i w. induction fuel as [|fuel IH]; intros fuel' i w Hle.
  - discriminate.
  - destruct fuel' as [|fuel']; [lia|]. simpl.
    destruct (bones m !! i) as [b|]; [|discriminate]. simpl.
    destruct (pose m !! i) as [p|]; [|discriminate]. simpl.
    destruct (0 <=? parent b); [|easy].
    destruct (world_transform m fuel (Z.to_nat (parent b))) as [w'|] eqn:Hw;
      [|discriminate].
    rewrite (IH fuel' _ w') by (assumption || lia). easy.
Qed.

Lemma model_update_matrices_spec (m : model_t) :
  arrays_fit m -> ancestor_first m ->
  exists sk,
    model_update_matrices m = Some (with_skeleton sk m) /\
    length sk = length (skeleton m) /\
    (forall i, (i < bones_len m)%nat ->
       exists x, skinning_matrix m i = Some x /\ sk !! i = Some x) /\
    (forall i, (bones_len m <= i)%nat -> sk !! i = skeleton m !! i).
Proof.
  intros (Hb & Hp & Hi & Hs) Hord.
  destruct (for_loop_invariant
    (fun j st =>
       length st.1 = bones_len m /\
       length st.2 = length (skeleton m) /\
       (forall k, (k < j)%nat ->
          exists w, st.1 !! k = Some (Some w) /\
                    world_transform m (S k) k = Some w /\
                    exists x, skinning_matrix m k = Some x /\
                              st.2 !! k = Some x) /\
       (forall k, (j <= k)%nat -> st.2 !! k = skeleton m !! k))
    (update_bone m) (bones_len m) 0
    (replicate (bones_len m) None, skeleton m)) as (st & Hrun & HP).
  - simpl. rewrite length_replicate.
    split; [reflexivity | split; [reflexivity | split]];
      [intros; lia | reflexivity].
  - intros j [tr sk] Hj (Htr & Hsk & Hlo & Hhi). simpl in *.
    destruct (lookup_lt_is_Some_2 (bones m) j) as [b Hbj]; [lia|].
    destruct (lookup_lt_is_Some_2 (pose m) j) as [p Hpj]; [lia|].
    destruct (lookup_lt_is_Some_2 (inverse_base m) j) as [inv Hij]; [lia|].
    assert (exists w, world_transform m (S j) j = Some w /\
              (if 0 <=? parent b
               then tp ← mjoin (at_index tr (parent b));
                    Some (mat4x4_mul (calc_bone_matrix (translate p)
                                        (rotate p) (scale p)) tp,
                          mat4x4_mul inv
                            (mat4x4_mul (calc_bone_matrix (translate p)
                                           (rotate p) (scale p)) tp))
               else Some (calc_bone_matrix (translate p) (rotate p)
                            (scale p),
                          mat4x4_mul inv
                            (calc_bone_matrix (translate p) (rotate p)
                               (scale p))))
              = Some (w, mat4x4_mul inv w)) as (w & Hw & Hbranch).
    { simpl. rewrite Hbj, Hpj. simpl.
      destruct (Z.leb_spec 0 (parent b)) as [Hpar|Hpar].
      - specialize (Hord j b ltac:(lia) Hbj).
        destruct (Hlo (Z.to_nat (parent b))) as (wp & Htp & Hwp & _); [lia|].
        rewrite (world_transform_mono m (S (Z.to_nat (parent b))) j _ wp)
          by (assumption || lia).
        simpl.
        eexists. split; [reflexivity|].
        unfold at_index. destruct (Z.ltb_spec (parent b) 0); [lia|].
        now rewrite Htp.
      - eexists. split; reflexivity. }
    unfold update_bone. rewrite Hbj, Hpj, Hij. simpl.
    rewrite Hbranch. simpl.
    rewrite !store_lt by lia. simpl.
    eexists. split; [reflexivity|]. simpl.
    split; [now rewrite length_insert|].
    split; [now rewrite length_insert|]. split.
    + intros k Hk. destruct (decide (k = j)) as [->|Hne].
      * exists w. rewrite !list_lookup_insert_eq by lia.
        split; [reflexivity|]. split; [assumption|].
        exists (mat4x4_mul inv w). split; [|reflexivity].
        unfold skinning_matrix. now rewrite Hij, Hw.
      * rewrite !list_lookup_insert_ne by lia. apply Hlo. lia.
    + intros k Hk. rewrite list_lookup_insert_ne by lia. apply Hhi. lia.
  - destruct HP as (_ & Hsk & Hlo & Hhi). exists st.2.
    split; [unfold model_update_matrices; now rewrite Hrun|].
    split; [assumption|]. split; [|assumption].
    intros i Hi'. destruct (Hlo i Hi') as (_ & _ & _ & Hx). exact Hx.
Qed.

(** ** The animated tick *)

Lemma at_index_Forall {A : Type} (P : A -> Prop) (l : list A) (z : Z)
    (x : A) :
  Forall P l -> at_index l z = Some x -> P x.
Proof.
  intros HP. unfold at_index. destruct (z <? 0); [discriminate|].
  intros Hx. exact (Forall_lookup_1 P l _ x HP Hx).
Qed.

Lemma skinning_matrix_with_skeleton (m : model_t) (sk : list mat4x4)
    (i : nat) :
  skinning_matrix (with_skeleton sk m) i = skinning_matrix m i.
Proof.
  unfold skinning_matrix.
  enough (forall fuel j, world_transform (with_skeleton sk m) fuel j
                         = world_transform m fuel j) as -> by reflexivity.
  induction fuel as [|fuel IH]; intros j; simpl; [reflexivity|].
  destruct (bones m !! j) as [b|]; simpl; [|reflexivity].
  destruct (pose m !! j) as [p|]; simpl; [|reflexivity].
  now rewrite IH.
Qed.

Lemma model_update_step (m : model_t) (dt : float) (i : nat)
    (anim : anim_t) (t' : float) (f' nf : Z) (w : float) :
  well_formed m ->
  current_anim m = Some i ->
  anims m !! i = Some anim ->
  playback anim (current_time m) dt = Some (Step t' f' nf w) ->
  is_Some (at_index (frames m) f') ->
  is_Some (at_index (frames m) nf) ->
  exists m',
    model_update m dt = Some m' /\
    current_anim m' = Some i /\
    current_time m' = t' /\
    current_frame m' = f' /\
    bones_len m' = bones_len m /\
    (forall k, (k < bones_len m)%nat ->
       exists a b ak bk,
         at_index (frames m) f' = Some a /\ a !! k = Some ak /\
         at_index (frames m) nf = Some b /\ b !! k = Some bk /\
         pose m' !! k = Some (blend_entry (clamp01 w) ak bk)) /\
    (forall k, (k < bones_len m)%nat ->
       exists x, skinning_matrix m' k = Some x /\
                 skeleton m' !! k = Some x).
Proof.
  intros (Hfit & Hord & Hfr) Hcur Hanim Hplay [a Ha] [b Hb].
  pose (m1 := with_playback t' f'
                (with_mesh_list (update_mesh m <$> mesh_list m) m)).
  destruct (mix_pose_spec m1 a b w) as (p & Hmix & Hlen & Hlo & _).
  { exact (at_index_Forall _ _ _ _ Hfr Ha). }
  { exact (at_index_Forall _ _ _ _ Hfr Hb). }
  { apply Hfit. }
  destruct (model_update_matrices_spec (with_pose p m1))
    as (sk & Hmat & _ & Hsk & _).
  { destruct Hfit as (H1 & H2 & H3 & H4).
    repeat split; simpl; try assumption. rewrite Hlen. exact H2. }
  { exact Hord. }
  exists (with_skeleton sk (with_pose p m1)).
  split.
  { unfold model_update. simpl. rewrite Hcur. simpl. rewrite Hanim. simpl.
    rewrite Hplay. simpl. rewrite Ha. simpl. rewrite Hb. simpl.
    fold m1. rewrite Hmix. simpl. exact Hmat. }
  repeat split; try reflexivity; try assumption.
  - intros k Hk. destruct (Hlo k Hk) as (ak & bk & Hak & Hbk & Hpk).
    exists a, b, ak, bk. now repeat split.
  - intros k Hk. rewrite skinning_matrix_with_skeleton. exact (Hsk k Hk).
Qed.

(** * The claims *)

(** C3 — During an advance with an active clip the frame span is the
    sum [last + first] of the clip (in [uint32_t] arithmetic), in all
    three tests.  The tick is held exactly when the clip does not loop and
    the elapsed frame exceeds that sum.  Every other tick advances: it
    wraps (looping) or clamps (not looping) exactly when
    [first + elapsed] reaches that sum and otherwise ends at
    [first + elapsed]; and the frame it blends towards falls back to
    [first] exactly when the frame after [first + elapsed] reaches that
    sum. *)
Theorem playback_frame_span (anim : anim_t) (t dt : float) (e : Z) :
  F32.to_u32 (F32.mul t (rate anim)) = Some e ->
  let span := u32 (last anim + first anim) in
  let frame := u32 (first anim + e) in
  let nf := if span <=? u32 (frame + 1)
            then s32 (first anim) else s32 (u32 (frame + 1)) in
  let w := F32.sub (F32.mul t (rate anim))
                   (F32.floor (F32.mul t (rate anim))) in
  (playback anim t dt = Some Hold <-> loop anim = false /\ span < e) /\
  (~ (loop anim = false /\ span < e) ->
   if span <=? frame
   then if loop anim
        then (forall f, reset_frame anim = Some f ->
                playback anim t dt = Some (Step F32.zero f nf w)) /\
             (0 <= first anim < 2 ^ 24 ->
                playback anim t dt
                = Some (Step F32.zero (first anim) nf w))
        else playback anim t dt
             = Some (Step (F32.add t dt) (last anim) nf w)
   else playback anim t dt = Some (Step (F32.add t dt) frame nf w)) /\
  (forall t' f' nf' w',
     playback anim t dt = Some (Step t' f' nf' w') ->
     (if span <=? frame
      then if loop anim
           then t' = F32.zero /\ reset_frame anim = Some f'
           else t' = F32.add t dt /\ f' = last anim
      else t' = F32.add t dt /\ f' = frame) /\
     nf' = nf /\ w' = w).
Proof.
  intros He span frame nf w.
  assert (Hreset : 0 <= first anim < 2 ^ 24 ->
                   reset_frame anim = Some (first anim)).
  { intros Hsmall. destruct (to_u32_mul_rate _ _ _ He) as [s Hs].
    unfold reset_frame. now rewrite Hs, to_u32_add_zero, of_Z_exact. }
  destruct (loop anim) eqn:Hloop.
  - pose proof (playback_step anim t dt e He (or_introl Hloop)) as Hp.
    rewrite Hloop in Hp. fold span frame in Hp.
    change (next_of anim frame) with nf in Hp.
    change (weight_of (F32.mul t (rate anim))) with w in Hp.
    rewrite Hp. split; [|split].
    + split; [|intros [Hf _]; discriminate Hf].
      destruct (span <=? frame); [destruct (reset_frame anim)|];
        simpl; intros [=].
    + intros _. destruct (span <=? frame); [|reflexivity].
      split.
      * intros f ->. reflexivity.
      * intros Hsmall. now rewrite (Hreset Hsmall).
    + intros t' f' nf' w'.
      destruct (span <=? frame); [destruct (reset_frame anim)|];
        simpl; intros [= <- <- <- <-]; now repeat split.
  - destruct (Z.lt_ge_cases span e) as [Hlt|Hge].
    + rewrite (playback_hold anim t dt e He Hloop Hlt).
      split; [now split|]. split; [|discriminate].
      intros Hn. exfalso. apply Hn. now split.
    + pose proof (playback_step anim t dt e He (or_intror Hge)) as Hp.
      rewrite Hloop in Hp. fold span frame in Hp.
      change (next_of anim frame) with nf in Hp.
      change (weight_of (F32.mul t (rate anim))) with w in Hp.
      rewrite Hp. split; [|split].
      * split; [|intros [_ ?]; lia].
        destruct (span <=? frame); simpl; intros [=].
      * intros _. destruct (span <=? frame); reflexivity.
      * intros t' f' nf' w'.
        destruct (span <=? frame); simpl; intros [= <- <- <- <-];
          now repeat split.
Qed.

(** C4 — When the active clip does not loop and the elapsed frame
    [floor (current_time * rate)] exceeds the frame span at the start of
    the tick, [model_update] returns with [current_time],
    [current_frame], the pose buffer and the skeleton matrices (and the
    active clip) exactly as they were. *)
Theorem model_update_hold (m : model_t) (dt : float) (i : nat)
    (anim : anim_t) (e : Z) :
  current_anim m = Some i ->
  anims m !! i = Some anim ->
  loop anim = false ->
  F32.to_u32 (F32.mul (current_time m) (rate anim)) = Some e ->
  u32 (last anim + first anim) < e ->
  exists m',
    model_update m dt = Some m' /\
    current_time m' = current_time m /\
    current_frame m' = current_frame m /\
    pose m' = pose m /\
    skeleton m' = skeleton m /\
    current_anim m' = current_anim m.
Proof.
  intros Hcur Hanim Hloop He Hlt.
  exists (with_mesh_list (update_mesh m <$> mesh_list m) m).
  split; [|now repeat split].
  unfold model_update. simpl. rewrite Hcur. simpl. rewrite Hanim. simpl.
  now rewrite (playback_hold anim _ dt e He Hloop Hlt).
Qed.

(** The wrapping or clamping tick: when the tick advances and
    [first + elapsed] reaches the frame span, a looping clip ends with
    [current_time] exactly 0 and [current_frame] as line 66 recomputes
    it, which is [first] for every [first] below 2^24; a clip that
    does not loop ends with [current_frame] equal to [last]. *)
Theorem model_update_wrap_or_clamp (m : model_t) (dt : float) (i : nat)
    (anim : anim_t) (e f : Z) :
  well_formed m ->
  current_anim m = Some i ->
  anims m !! i = Some anim ->
  F32.to_u32 (F32.mul (current_time m) (rate anim)) = Some e ->
  (loop anim = true \/ e <= u32 (last anim + first anim)) ->
  u32 (last anim + first anim) <= u32 (first anim + e) ->
  (loop anim = true -> F32.to_u32 (F32.of_Z (first anim)) = Some f) ->
  frames_in_range m anim dt ->
  exists m',
    model_update m dt = Some m' /\
    if loop anim
    then current_time m' = F32.zero /\ current_frame m' = f /\
         (0 <= first anim < 2 ^ 24 -> current_frame m' = first anim)
    else current_frame m' = last anim.
Proof.
  intros Hwf Hcur Hanim He Hadv Hreach Hf Hrange.
  pose proof (playback_step anim _ dt e He Hadv) as Hp.
  destruct (Z.leb_spec (u32 (last anim + first anim))
              (u32 (first anim + e))); [|lia].
  destruct (to_u32_mul_rate _ _ _ He) as [s Hs].
  unfold reset_frame in Hp. rewrite Hs, to_u32_add_zero in Hp.
  destruct (loop anim).
  - specialize (Hf eq_refl). rewrite Hf in Hp. simpl in Hp.
    destruct (Hrange _ _ _ _ Hp) as [Ha Hb].
    destruct (model_update_step m dt i anim _ _ _ _ Hwf Hcur Hanim Hp Ha Hb)
      as (m' & Hm' & _ & Ht & Hfr & _).
    exists m'. split; [assumption|]. split; [assumption|].
    split; [assumption|].
    intros Hsmall. rewrite (of_Z_exact _ Hsmall) in Hf. congruence.
  - simpl in Hp.
    destruct (Hrange _ _ _ _ Hp) as [Ha Hb].
    destruct (model_update_step m dt i anim _ _ _ _ Hwf Hcur Hanim Hp Ha Hb)
      as (m' & Hm' & _ & Ht & Hfr & _).
    exists m'. now split.
Qed.

(** C10 — An index that [model_set_anim] rejects (an index greater than
    [anims_len]) clears [current_anim] and nothing else: [current_time]
    and [current_frame] keep their values. *)
Theorem model_set_anim_reject_keeps_playback (m : model_t) (index : nat) :
  (anims_len m < index)%nat ->
  exists m',
    model_set_anim m index = Some m' /\
    current_anim m' = None /\
    current_time m' = current_time m /\
    current_frame m' = current_frame m /\
    m' = with_anim None m.
Proof.
  intros Hi. exists (with_anim None m).
  rewrite (model_set_anim_rejected m index Hi). now repeat split.
Qed.

(** C6 — With every parent stored before its children,
    [model_update_matrices] writes for each bone the inverse bind-pose
    matrix composed with the bone's world transform; the world transform
    of a root is its local matrix, that of a child is its local matrix
    composed with the world transform of its parent; and the local matrix
    is the identity multiplied by the scale, then the rotation, then the
    translation matrix of the pose entry. *)
Theorem model_update_matrices_compose (m : model_t) :
  arrays_fit m -> ancestor_first m ->
  exists sk,
    model_update_matrices m = Some (with_skeleton sk m) /\
    forall i, (i < bones_len m)%nat ->
      exists b p inv w,
        bones m !! i = Some b /\ pose m !! i = Some p /\
        inverse_base m !! i = Some inv /\
        world_transform m (S i) i = Some w /\
        sk !! i = Some (mat4x4_mul inv w) /\
        (if 0 <=? parent b
         then exists wp,
                world_transform m (S (Z.to_nat (parent b)))
                  (Z.to_nat (parent b)) = Some wp /\
                w = mat4x4_mul
                      (calc_bone_matrix (translate p) (rotate p) (scale p))
                      wp
         else w = calc_bone_matrix (translate p) (rotate p) (scale p)) /\
        calc_bone_matrix (translate p) (rotate p) (scale p)
        = mat4x4_mul
            (mat4x4_mul
               (mat4x4_mul mat4x4_identity (mat4x4_scale_xyz (scale p)))
               (mat4x4_rotate_quat (rotate p)))
            (mat4x4_translate (translate p)).
Proof.
  intros Hfit Hord.
  destruct (model_update_matrices_spec m Hfit Hord)
    as (sk & Hrun & _ & Hsk & _).
  exists sk. split; [assumption|].
  intros i Hi. destruct (Hsk i Hi) as (x & Hx & Hski).
  destruct Hfit as (Hb & Hp & Hinv & _).
  destruct (lookup_lt_is_Some_2 (bones m) i) as [b Hbi]; [lia|].
  destruct (lookup_lt_is_Some_2 (pose m) i) as [p Hpi]; [lia|].
  destruct (lookup_lt_is_Some_2 (inverse_base m) i) as [inv Hii]; [lia|].
  unfold skinning_matrix in Hx. rewrite Hii in Hx.
  destruct (world_transform m (S i) i) as [w|] eqn:Hw; [|discriminate].
  simpl in Hx. injection Hx as <-.
  exists b, p, inv, w. repeat split; try assumption.
  simpl in Hw. rewrite Hbi, Hpi in Hw. simpl in Hw.
  destruct (Z.leb_spec 0 (parent b)) as [Hpar|Hpar].
  - destruct (world_transform m i (Z.to_nat (parent b))) as [wp|] eqn:Hwp;
      [|discriminate].
    simpl in Hw. injection Hw as <-.
    exists wp. split; [|reflexivity].
    specialize (Hord i b Hi Hbi).
    destruct (Hsk (Z.to_nat (parent b))) as (y & Hy & _); [lia|].
    unfold skinning_matrix in Hy.
    destruct (inverse_base m !! Z.to_nat (parent b)); [|discriminate].
    destruct (world_transform m (S (Z.to_nat (parent b)))
                (Z.to_nat (parent b))) as [wp'|] eqn:Hwp'; [|discriminate].
    rewrite (world_transform_mono m (S (Z.to_nat (parent b))) i _ wp')
      in Hwp by (assumption || lia).
    congruence.
  - now injection Hw as <-.
Qed.

(** C7 — [mix_pose] clamps the weight to [0,1] (a weight inside the
    interval is kept, one below becomes 0, one above becomes 1) and then
    writes, for every bone, the translation and scale interpolated
    linearly and the rotation interpolated spherically and renormalised;
    the entries beyond the bones and every other field of the model are
    left as they were. *)
Theorem mix_pose_blend (m : model_t) (a b : frame_t) (weight : float) :
  (bones_len m <= length a)%nat ->
  (bones_len m <= length b)%nat ->
  (bones_len m <= length (pose m))%nat ->
  let w := MIN (MAX weight F32.zero) F32.one in
  (F32.leb F32.zero w = true /\ F32.leb w F32.one = true) /\
  (F32.leb F32.zero weight = true -> F32.leb weight F32.one = true ->
     SFeqb w weight = true) /\
  (F32.ltb weight F32.zero = true -> w = F32.zero) /\
  (F32.ltb F32.one weight = true -> w = F32.one) /\
  exists p,
    mix_pose m a b weight = Some (with_pose p m) /\
    length p = length (pose m) /\
    (forall i, (i < bones_len m)%nat ->
       exists ai bi,
         a !! i = Some ai /\ b !! i = Some bi /\
         p !! i = Some
           {| translate := vec3_lerp (translate ai) (translate bi) w;
              rotate := quat_norm (quat_slerp (rotate ai) (rotate bi) w);
              scale := vec3_lerp (scale ai) (scale bi) w |}) /\
    (forall i, (bones_len m <= i)%nat -> p !! i = pose m !! i).
Proof.
  intros Ha Hb Hp w.
  split; [apply clamp01_range|].
  split; [apply clamp01_inside|].
  split; [apply clamp01_below|].
  split; [apply clamp01_above|].
  exact (mix_pose_spec m a b weight Ha Hb Hp).
Qed.

End Generic.

(** ** Renormalised rotations *)

Section Unit.

Context `{NC : NormContract}.

(** C9 — After [mix_pose] and after [model_set_pose] the rotation stored
    for every bone is the renormalisation by [quat_norm] of the rotation
    computed for it, hence unit-length. *)
Theorem pose_rotations_unit (m : model_t) (a b frame : frame_t)
    (weight : float) :
  (bones_len m <= length a)%nat ->
  (bones_len m <= length b)%nat ->
  (bones_len m <= length frame)%nat ->
  (bones_len m <= length (pose m))%nat ->
  (exists p,
     mix_pose m a b weight = Some (with_pose p m) /\
     forall i, (i < bones_len m)%nat ->
       exists x ai bi,
         p !! i = Some x /\ a !! i = Some ai /\ b !! i = Some bi /\
         rotate x = quat_norm (quat_slerp (rotate ai) (rotate bi)
                                 (MIN (MAX weight F32.zero) F32.one)) /\
         unit_length (rotate x)) /\
  (exists p,
     model_set_pose m frame = Some (with_pose p m) /\
     forall i, (i < bones_len m)%nat ->
       exists x f,
         p !! i = Some x /\ frame !! i = Some f /\
         rotate x = quat_norm (rotate f) /\
         unit_length (rotate x)).
Proof.
  intros Ha Hb Hf Hp. split.
  - destruct (mix_pose_spec m a b weight Ha Hb Hp) as (p & Hrun & _ & Hlo & _).
    exists p. split; [assumption|].
    intros i Hi. destruct (Hlo i Hi) as (ai & bi & Hai & Hbi & Hpi).
    eexists _, ai, bi. repeat split; try eassumption.
    + reflexivity.
    + apply quat_norm_unit.
  - destruct (model_set_pose_spec m frame Hf Hp) as (p & Hrun & _ & Hlo & _).
    exists p. split; [assumption|].
    intros i Hi. destruct (Hlo i Hi) as (f & Hfi & Hpi).
    eexists _, f. repeat split; try eassumption.
    + reflexivity.
    + apply quat_norm_unit.
Qed.

End Unit.

(** * Concrete models *)

Module Examples.

Import Sym.

Lemma boneless_well_formed clips n anim time frame :
  well_formed (boneless clips n anim time frame).
Proof.
  split; [|split].
  - repeat split; simpl; lia.
  - intros i b Hi. simpl in Hi. lia.
  - apply Forall_replicate. simpl. lia.
Qed.

Lemma boneless_frame clips n anim time frame z :
  0 <= z < Z.of_nat n ->
  at_index (frames (boneless clips n anim time frame)) z = Some [].
Proof.
  intros Hz. unfold at_index. destruct (Z.ltb_spec z 0); [lia|].
  simpl. apply lookup_replicate_2. lia.
Qed.

(** C1 — Playing the second clip of a model, [first = 5] and
    [last = 10], from a state with [current_frame = 10]: one tick leaves
    [current_frame] at 11, beyond [last], whether the clip loops or not. *)
Theorem current_frame_exceeds_last :
  forall looping : bool,
    let m := boneless [idle_clip; walk looping] 16 (Some 1%nat)
                      (F32.of_Z 6) 10 in
    exists m',
      model_update m F32.one = Some m' /\
      current_anim m' = Some 1%nat /\
      current_frame m' = 11 /\
      ~ (first (walk looping) <= current_frame m' <= last (walk looping)).
Proof.
  intros [|]; simpl; eexists; (split; [vm_compute; reflexivity|]);
    simpl; repeat split; lia.
Qed.

(** The same state is reached from [model_set_anim] by seven ticks of one
    second. *)
Lemma current_frame_exceeds_last_from_start :
  let m := boneless [idle_clip; walk true] 16 None F32.zero 0 in
  exists m',
    (m0 ← model_set_anim m 1; ticks 7 F32.one m0) = Some m' /\
    current_frame m' = 11.
Proof. eexists. split; [vm_compute; reflexivity | reflexivity]. Qed.

(** C2 — On a model with one clip, index 1 addresses no clip, yet
    [model_set_anim] does not take the rejecting branch: it points
    [current_anim] past the clips and reads [first] from there.  Where
    the array ends with the clips that read is undefined; where the
    memory goes on ([spare]) the model plays what it finds there, and the
    next tick advances the playback state. *)
Theorem model_set_anim_off_by_one :
  (let m := boneless [walk true] 16 None F32.zero 0 in
   anims_len m = 1%nat /\
   anims m !! 1%nat = None /\
   model_set_anim m 1 = None /\
   model_set_anim m 1 <> Some (with_anim None m)) /\
  (anims_len spare = 1%nat /\
   exists m1 m2,
     model_set_anim spare 1 = Some m1 /\
     current_anim m1 = Some 1%nat /\
     current_time m1 = F32.zero /\
     model_update m1 F32.one = Some m2 /\
     current_time m2 = F32.one).
Proof.
  split; [now repeat split|].
  split; [reflexivity|].
  eexists _, _. split; [vm_compute; reflexivity|].
  split; [reflexivity|]. split; [reflexivity|].
  split; [vm_compute; reflexivity | reflexivity].
Qed.

Lemma far_playback :
  playback far (F32.of_Z 16777220) F32.one
  = Some (Step F32.zero 16777216 16777217 F32.zero).
Proof. vm_compute. reflexivity. Qed.

(** C5 — The looping clip [far] starts at frame 2^24 + 1.  Its wrapping
    tick ends with [current_time] exactly 0, but line 66 recomputes
    [current_frame] in [float] arithmetic and leaves it at 2^24, one
    below [first] and outside the clip. *)
Theorem loop_reset_frame_rounds :
  let m := boneless [far] (Z.to_nat 16777219) (Some 0%nat)
                    (F32.of_Z 16777220) 16777217 in
  exists m',
    model_update m F32.one = Some m' /\
    current_time m' = F32.zero /\
    current_frame m' = 16777216 /\
    current_frame m' <> first far.
Proof.
  intros m.
  destruct (model_update_step m F32.one 0 far _ _ _ _
              (boneless_well_formed _ _ _ _ _) eq_refl eq_refl far_playback)
    as (m' & Hrun & _ & Ht & Hf & _).
  - unfold m. rewrite boneless_frame; [eauto | lia].
  - unfold m. rewrite boneless_frame; [eauto | lia].
  - exists m'. rewrite Hf.
    split; [exact Hrun | split; [exact Ht | split; [reflexivity|]]].
    discriminate.
Qed.

(** The span is the sum, not the difference: on a clip from frame 2 to
    frame 5 that does not loop, elapsed frame 4 exceeds [last - first] and
    the tick still advances. *)
Lemma playback_span_not_difference :
  let clip := {| first := 2; last := 5; rate := F32.one; loop := false |} in
  last clip - first clip < 4 /\
  playback clip (F32.of_Z 4) F32.one
  = Some (Step (F32.of_Z 5) 6 2 F32.zero).
Proof. split; [simpl; lia | vm_compute; reflexivity]. Qed.

(** ** The theorems at concrete models *)

Lemma chain_arrays_fit : arrays_fit chain.
Proof. repeat split; simpl; lia. Qed.

Lemma chain_ancestor_first : ancestor_first chain.
Proof.
  intros i b Hi Hb. simpl in Hi.
  destruct i as [|[|i]]; simpl in Hb; [| |lia];
    injection Hb as <-; simpl; lia.
Qed.

Lemma playback_frame_span_witness :
  F32.to_u32 (F32.mul (F32.of_Z 3) (rate (walk true))) = Some 3 /\
  F32.to_u32 (F32.mul (F32.of_Z 10) (rate (walk true))) = Some 10 /\
  F32.to_u32 (F32.mul (F32.of_Z 10) (rate (walk false))) = Some 10 /\
  playback (walk true) (F32.of_Z 3) F32.one
  = Some (Step (F32.of_Z 4) 8 9 F32.zero) /\
  playback (walk true) (F32.of_Z 10) F32.one
  = Some (Step F32.zero 5 5 F32.zero) /\
  playback (walk false) (F32.of_Z 10) F32.one
  = Some (Step (F32.of_Z 11) 10 5 F32.zero).
Proof.
  split; [reflexivity|]. split; [reflexivity|]. split; [reflexivity|].
  assert (Hadv : forall l e, ~ (loop (walk l) = false /\ 15 < e) ->
                   ~ (loop (walk l) = false
                      /\ u32 (last (walk l) + first (walk l)) < e))
    by (intros l e H; exact H).
  split; [|split].
  - exact (proj1 (proj2 (playback_frame_span (walk true) (F32.of_Z 3)
                           F32.one 3 eq_refl))
             (Hadv true 3 ltac:(intros [H _]; discriminate H))).
  - apply (proj1 (proj2 (playback_frame_span (walk true) (F32.of_Z 10)
                           F32.one 10 eq_refl))
             (Hadv true 10 ltac:(intros [H _]; discriminate H))).
    simpl. lia.
  - exact (proj1 (proj2 (playback_frame_span (walk false) (F32.of_Z 10)
                           F32.one 10 eq_refl))
             (Hadv false 10 ltac:(intros [_ H]; simpl in H; lia))).
Defined.

Lemma model_update_hold_witness :
  let m := boneless [walk false] 16 (Some 0%nat) (F32.of_Z 16) 10 in
  (current_anim m = Some 0%nat /\ anims m !! 0%nat = Some (walk false) /\
   loop (walk false) = false /\
   F32.to_u32 (F32.mul (current_time m) (rate (walk false))) = Some 16 /\
   u32 (last (walk false) + first (walk false)) < 16) /\
  exists m',
    model_update m F32.one = Some m' /\
    current_time m' = current_time m /\
    current_frame m' = current_frame m /\
    pose m' = pose m /\
    skeleton m' = skeleton m /\
    current_anim m' = current_anim m.
Proof.
  intros m.
  split; [repeat split; reflexivity|].
  apply (model_update_hold m F32.one 0 (walk false) 16);
    reflexivity.
Defined.

Lemma walk_frames_in_range :
  frames_in_range (boneless [walk true] 16 (Some 0%nat) (F32.of_Z 10) 14)
                  (walk true) F32.one.
Proof.
  intros t' f' nf w Hplay. vm_compute in Hplay.
  injection Hplay as <- <- <- <-. split; eexists; reflexivity.
Qed.

Lemma model_update_wrap_or_clamp_witness :
  let m := boneless [walk true] 16 (Some 0%nat) (F32.of_Z 10) 14 in
  (well_formed m /\ current_anim m = Some 0%nat /\
   anims m !! 0%nat = Some (walk true) /\
   F32.to_u32 (F32.mul (current_time m) (rate (walk true))) = Some 10 /\
   (loop (walk true) = true \/ 10 <= u32 (last (walk true) + first (walk true))) /\
   u32 (last (walk true) + first (walk true)) <= u32 (first (walk true) + 10) /\
   (loop (walk true) = true ->
    F32.to_u32 (F32.of_Z (first (walk true))) = Some 5) /\
   frames_in_range m (walk true) F32.one) /\
  exists m',
    model_update m F32.one = Some m' /\
    current_time m' = F32.zero /\ current_frame m' = 5 /\
    (0 <= first (walk true) < 2 ^ 24 -> current_frame m' = first (walk true)).
Proof.
  intros m.
  assert (Hwf : well_formed m) by apply boneless_well_formed.
  assert (Hadv : loop (walk true) = true \/
                 10 <= u32 (last (walk true) + first (walk true)))
    by (left; reflexivity).
  assert (Hreach : u32 (last (walk true) + first (walk true))
                   <= u32 (first (walk true) + 10))
    by (vm_compute; discriminate).
  split.
  - exact (conj Hwf (conj eq_refl (conj eq_refl (conj eq_refl
             (conj Hadv (conj Hreach
                (conj (fun _ => eq_refl) walk_frames_in_range))))))).
  - exact (model_update_wrap_or_clamp m F32.one 0 (walk true) 10 5
             Hwf eq_refl eq_refl eq_refl Hadv Hreach (fun _ => eq_refl)
             walk_frames_in_range).
Defined.

Lemma model_set_anim_reject_keeps_playback_witness :
  let m := boneless [walk true] 16 (Some 0%nat) F32.one 7 in
  (anims_len m < 2)%nat /\
  exists m',
    model_set_anim m 2 = Some m' /\
    current_anim m' = None /\
    current_time m' = current_time m /\
    current_frame m' = current_frame m /\
    m' = with_anim None m.
Proof.
  intros m.
  assert (H : (anims_len m < 2)%nat) by (simpl; lia).
  split; [exact H|].
  exact (model_set_anim_reject_keeps_playback m 2 H).
Defined.

Lemma model_update_matrices_compose_witness :
  arrays_fit chain /\ ancestor_first chain /\
  exists sk,
    model_update_matrices chain = Some (with_skeleton sk chain) /\
    sk = [ Mul (Bind 0) (Mul (Mul (Mul Id (ScaleXYZ (V 1 1 4)))
                                  (Rotate (Q 0 0 4 1)))
                             (Translate (V 4 0 0)));
           Mul (Bind 1)
               (Mul (Mul (Mul (Mul Id (ScaleXYZ (V 1 1 5)))
                              (Rotate (Q 0 0 5 1)))
                         (Translate (V 5 0 0)))
                    (Mul (Mul (Mul Id (ScaleXYZ (V 1 1 4)))
                              (Rotate (Q 0 0 4 1)))
                         (Translate (V 4 0 0)))) ].
Proof.
  split; [exact chain_arrays_fit|]. split; [exact chain_ancestor_first|].
  destruct (model_update_matrices_compose chain chain_arrays_fit
              chain_ancestor_first) as (sk & Hrun & _).
  exists sk. split; [exact Hrun|].
  vm_compute in Hrun. now injection Hrun as <-.
Defined.

Lemma mix_pose_blend_witness :
  let a := [entry 0; entry 1] in
  let b := [entry 2; entry 3] in
  ((bones_len chain <= length a)%nat /\ (bones_len chain <= length b)%nat /\
   (bones_len chain <= length (pose chain))%nat) /\
  exists p,
    mix_pose chain a b (F32.of_Z 3) = Some (with_pose p chain) /\
    p = [ {| translate := Lerp (V 0 0 0) (V 2 0 0) F32.one;
             rotate := Norm (Slerp (Q 0 0 0 1) (Q 0 0 2 1) F32.one);
             scale := Lerp (V 1 1 0) (V 1 1 2) F32.one |};
          {| translate := Lerp (V 1 0 0) (V 3 0 0) F32.one;
             rotate := Norm (Slerp (Q 0 0 1 1) (Q 0 0 3 1) F32.one);
             scale := Lerp (V 1 1 1) (V 1 1 3) F32.one |} ].
Proof.
  intros a b.
  assert (Ha : (bones_len chain <= length a)%nat) by (simpl; lia).
  assert (Hb : (bones_len chain <= length b)%nat) by (simpl; lia).
  assert (Hp : (bones_len chain <= length (pose chain))%nat)
    by (simpl; lia).
  split; [now repeat split|].
  destruct (mix_pose_blend chain a b (F32.of_Z 3) Ha Hb Hp)
    as (_ & _ & _ & _ & p & Hrun & _).
  exists p. split; [exact Hrun|].
  vm_compute in Hrun. now injection Hrun as <-.
Defined.

Lemma pose_rotations_unit_witness :
  let a := [entry 0; entry 1] in
  let b := [entry 2; entry 3] in
  let frame := [entry 7; entry 8] in
  ((bones_len chain <= length a)%nat /\ (bones_len chain <= length b)%nat /\
   (bones_len chain <= length frame)%nat /\
   (bones_len chain <= length (pose chain))%nat) /\
  (exists p,
     mix_pose chain a b F32.one = Some (with_pose p chain) /\
     forall i, (i < bones_len chain)%nat ->
       exists x, p !! i = Some x /\ unit_length (rotate x)) /\
  (exists p,
     model_set_pose chain frame = Some (with_pose p chain) /\
     forall i, (i < bones_len chain)%nat ->
       exists x, p !! i = Some x /\ unit_length (rotate x)).
Proof.
  intros a b frame.
  assert (Ha : (bones_len chain <= length a)%nat) by (simpl; lia).
  assert (Hb : (bones_len chain <= length b)%nat) by (simpl; lia).
  assert (Hf : (bones_len chain <= length frame)%nat) by (simpl; lia).
  assert (Hp : (bones_len chain <= length (pose chain))%nat)
    by (simpl; lia).
  split; [now repeat split|].
  destruct (pose_rotations_unit chain a b frame F32.one Ha Hb Hf Hp)
    as ((p & Hrun & Hall) & (q & Hset & Hall')).
  split.
  - exists p. split; [exact Hrun|]. intros i Hi.
    destruct (Hall i Hi) as (x & _ & _ & Hx & _ & _ & _ & Hu).
    now exists x.
  - exists q. split; [exact Hset|]. intros i Hi.
    destruct (Hall' i Hi) as (x & _ & Hx & _ & _ & Hu).
    now exists x.
Defined.

End Examples.

(** * More properties of [model.c] *)

Section More.

Context `{LM : LinMath}.

(** ** Running loops backwards *)

(** What a loop that ran to its end says about its iterations: each one
    started in a state satisfying the invariant and was defined there. *)
Lemma for_loop_ran {St : Type} (P : nat -> St -> Prop)
    (body : nat -> St -> option St) (n i : nat) (s t : St) :
  for_loop body i n s = Some t ->
  P i s ->
  (forall j u u', (i <= j < i + n)%nat -> P j u -> body j u = Some u' ->
     P (S j) u') ->
  P (i + n)%nat t /\
  (forall j, (i <= j < i + n)%nat ->
     exists u u', P j u /\ body j u = Some u').
Proof.
  revert i s. induction n as [|n IH]; intros i s Hrun Hs Hstep; simpl in Hrun.
  - injection Hrun as <-. rewrite Nat.add_0_r. split; [assumption|].
    intros j Hj. lia.
  - destruct (body i s) as [s'|] eqn:Hbody; [|discriminate]. simpl in Hrun.
    destruct (IH (S i) s' Hrun) as [Hend Hall].
    + apply (Hstep i s s'); [lia | assumption | assumption].
    + intros j u u' Hj. apply Hstep. lia.
    + replace (i + S n)%nat with (S i + n)%nat by lia.
      split; [assumption|].
      intros j Hj. destruct (decide (j = i)) as [->|Hne].
      * now exists s, s'.
      * apply Hall. lia.
Qed.

Lemma store_Some_inv {A : Type} (l l' : list A) (i : nat) (x : A) :
  store l i x = Some l' -> (i < length l)%nat /\ l' = <[i := x]> l.
Proof.
  unfold store. destruct (decide (i < length l)%nat); [|discriminate].
  intros [= <-]. now split.
Qed.

Lemma le_of_all_lt (n k : nat) :
  (forall j, (j < n)%nat -> (j < k)%nat) -> (n <= k)%nat.
Proof.
  intros H. destruct n as [|n]; [lia|]. specialize (H n). lia.
Qed.

(** ** What [mix_pose] and [model_set_pose] need *)

Lemma mix_pose_ran (m m' : model_t) (a b : frame_t) (w : float) :
  mix_pose m a b w = Some m' ->
  (bones_len m <= length a)%nat /\
  (bones_len m <= length b)%nat /\
  (bones_len m <= length (pose m))%nat.
Proof.
  unfold mix_pose. intros Hrun.
  destruct (for_loop _ 0%nat (bones_len m) (pose m)) as [p|] eqn:Hloop;
    [|discriminate].
  destruct (for_loop_ran (fun _ u => length u = length (pose m))
              _ _ _ _ _ Hloop eq_refl) as [_ Hall].
  - intros j u u' _ Hu Hbody.
    destruct (a !! j); [|discriminate]. destruct (b !! j); [|discriminate].
    simpl in Hbody. apply store_Some_inv in Hbody as [_ ->].
    now rewrite length_insert.
  - repeat split; apply le_of_all_lt; intros j Hj;
      destruct (Hall j ltac:(lia)) as (u & u' & Hu & Hbody);
      destruct (a !! j) eqn:Ha; try discriminate;
      destruct (b !! j) eqn:Hb; try discriminate.
    + now apply lookup_lt_Some in Ha.
    + now apply lookup_lt_Some in Hb.
    + simpl in Hbody. apply store_Some_inv in Hbody as [Hlt _]. lia.
Qed.

Lemma model_set_pose_ran (m m' : model_t) (frame : frame_t) :
  model_set_pose m frame = Some m' ->
  (bones_len m <= length frame)%nat /\
  (bones_len m <= length (pose m))%nat.
Proof.
  unfold model_set_pose. intros Hrun.
  destruct (for_loop _ 0%nat (bones_len m) (pose m)) as [p|] eqn:Hloop;
    [|discriminate].
  destruct (for_loop_ran (fun _ u => length u = length (pose m))
              _ _ _ _ _ Hloop eq_refl) as [_ Hall].
  - intros j u u' _ Hu Hbody.
    destruct (frame !! j); [|discriminate].
    simpl in Hbody. apply store_Some_inv in Hbody as [_ ->].
    now rewrite length_insert.
  - split; apply le_of_all_lt; intros j Hj;
      destruct (Hall j ltac:(lia)) as (u & u' & Hu & Hbody);
      destruct (frame !! j) eqn:Hf; try discriminate.
    + now apply lookup_lt_Some in Hf.
    + simpl in Hbody. apply store_Some_inv in Hbody as [Hlt _]. lia.
Qed.

(** X12 — [mix_pose] is defined exactly when both frames and the pose
    buffer hold an entry for each of the [bones_len] bones: with a shorter
    array it reads or writes past the end. *)
Theorem mix_pose_defined_iff (m : model_t) (a b : frame_t) (w : float) :
  is_Some (mix_pose m a b w) <->
  (bones_len m <= length a)%nat /\
  (bones_len m <= length b)%nat /\
  (bones_len m <= length (pose m))%nat.
Proof.
  split.
  - intros [m' Hrun]. exact (mix_pose_ran m m' a b w Hrun).
  - intros (Ha & Hb & Hp).
    destruct (mix_pose_spec m a b w Ha Hb Hp) as (p & -> & _). eauto.
Qed.

(** X13 — [model_set_pose] is defined exactly when the frame and the pose
    buffer hold an entry for each bone; it then copies translation and
    scale of every bone's entry as they are, stores the rotation
    renormalised, and leaves the entries beyond the bones and every other
    field of the model alone. *)
Theorem model_set_pose_copies (m : model_t) (frame : frame_t) :
  (is_Some (model_set_pose m frame) <->
   (bones_len m <= length frame)%nat /\
   (bones_len m <= length (pose m))%nat) /\
  (forall m', model_set_pose m frame = Some m' ->
     exists p,
       m' = with_pose p m /\
       length p = length (pose m) /\
       (forall i, (i < bones_len m)%nat ->
          exists f x,
            frame !! i = Some f /\ p !! i = Some x /\
            translate x = translate f /\
            scale x = scale f /\
            rotate x = quat_norm (rotate f)) /\
       (forall i, (bones_len m <= i)%nat -> p !! i = pose m !! i)).
Proof.
  split.
  - split.
    + intros [m' Hrun]. exact (model_set_pose_ran m m' frame Hrun).
    + intros (Hf & Hp).
      destruct (model_set_pose_spec m frame Hf Hp) as (p & -> & _). eauto.
  - intros m' Hrun.
    destruct (model_set_pose_ran m m' frame Hrun) as (Hf & Hp).
    destruct (model_set_pose_spec m frame Hf Hp) as (p & Hp' & Hlen & Hlo & Hhi).
    exists p. rewrite Hp' in Hrun. injection Hrun as <-.
    split; [reflexivity|]. split; [assumption|]. split; [|assumption].
    intros i Hi. destruct (Hlo i Hi) as (f & Hfi & Hpi).
    exists f, (set_entry f). now repeat split.
Qed.

(** ** What [model_update_matrices] needs *)

Lemma model_update_matrices_ran (m m' : model_t) :
  model_update_matrices m = Some m' ->
  arrays_fit m /\ ancestor_first m.
Proof.
  unfold model_update_matrices. intros Hrun.
  destruct (for_loop (update_bone m) 0%nat (bones_len m)
              (replicate (bones_len m) None, skeleton m))
    as [st|] eqn:Hloop; [|discriminate].
  destruct (for_loop_ran
    (fun j st =>
       length st.1 = bones_len m /\
       length st.2 = length (skeleton m) /\
       forall k, (j <= k)%nat -> (k < bones_len m)%nat ->
         st.1 !! k = Some None)
    _ _ _ _ _ Hloop) as [_ Hall].
  - simpl. rewrite length_replicate. split; [reflexivity|].
    split; [reflexivity|]. intros k _ Hk. now apply lookup_replicate_2.
  - intros j [tr sk] [tr' sk'] Hj (Htr & Hsk & Hnone) Hbody.
    simpl in *. unfold update_bone in Hbody.
    destruct (bones m !! j) as [b|]; [|discriminate].
    destruct (pose m !! j) as [p|]; [|discriminate].
    destruct (inverse_base m !! j) as [inv|]; [|discriminate].
    simpl in Hbody.
    destruct (if 0 <=? parent b then _ else _) as [[ti result]|];
      [|discriminate].
    simpl in Hbody.
    destruct (store tr j (Some ti)) as [tr1|] eqn:Htr1; [|discriminate].
    destruct (store sk j result) as [sk1|] eqn:Hsk1; [|discriminate].
    simpl in Hbody. injection Hbody as <- <-.
    apply store_Some_inv in Htr1 as [_ ->].
    apply store_Some_inv in Hsk1 as [_ ->].
    rewrite !length_insert. split; [assumption|]. split; [assumption|].
    intros k Hk Hk'. rewrite list_lookup_insert_ne by lia.
    apply Hnone; lia.
  - assert (Hq : forall j, (j < bones_len m)%nat ->
              (j < length (bones m))%nat /\ (j < length (pose m))%nat /\
              (j < length (inverse_base m))%nat /\
              (j < length (skeleton m))%nat /\
              forall b, bones m !! j = Some b -> parent b < Z.of_nat j).
    { intros j Hj.
      destruct (Hall j ltac:(lia)) as ([tr sk] & [tr' sk'] & HP & Hbody).
      destruct HP as (Htr & Hsk & Hnone). simpl in *.
      unfold update_bone in Hbody.
      destruct (bones m !! j) as [b|] eqn:Hb; [|discriminate].
      destruct (pose m !! j) as [p|] eqn:Hp; [|discriminate].
      destruct (inverse_base m !! j) as [inv|] eqn:Hi; [|discriminate].
      simpl in Hbody.
      destruct (if 0 <=? parent b then _ else _) as [[ti result]|] eqn:Hbr;
        [|discriminate].
      simpl in Hbody.
      destruct (store tr j (Some ti)) as [tr1|]; [|discriminate].
      destruct (store sk j result) as [sk1|] eqn:Hsk1; [|discriminate].
      apply store_Some_inv in Hsk1 as [Hlt _].
      apply lookup_lt_Some in Hb as Hb'. apply lookup_lt_Some in Hp.
      apply lookup_lt_Some in Hi.
      repeat split; try lia.
      intros b0 [= <-].
      destruct (Z.leb_spec 0 (parent b)) as [Hpar|Hpar]; [|lia].
      destruct (Z.lt_ge_cases (parent b) (Z.of_nat j)) as [|Hge]; [easy|].
      exfalso. unfold at_index in Hbr.
      destruct (Z.ltb_spec (parent b) 0); [lia|].
      destruct (tr !! Z.to_nat (parent b)) as [o|] eqn:Hlook;
        [|discriminate].
      rewrite Hnone in Hlook; [| lia |].
      - now injection Hlook as <-.
      - apply lookup_lt_Some in Hlook. lia. }
    split.
    + repeat split; apply le_of_all_lt; intros j Hj;
        destruct (Hq j Hj) as (? & ? & ? & ? & _); assumption.
    + intros j b Hj Hb. destruct (Hq j Hj) as (_ & _ & _ & _ & Hpar).
      now apply Hpar.
Qed.

(** X14 — [model_update_matrices] is defined exactly when the four
    per-bone arrays hold [bones_len] entries and every bone with a parent
    comes after it: a bone that names itself or a later bone as its parent
    makes the loop read a transform that has not been computed. *)
Theorem model_update_matrices_defined_iff (m : model_t) :
  is_Some (model_update_matrices m) <-> arrays_fit m /\ ancestor_first m.
Proof.
  split.
  - intros [m' Hrun]. exact (model_update_matrices_ran m m' Hrun).
  - intros [Hfit Hord].
    destruct (model_update_matrices_spec m Hfit Hord) as (sk & -> & _). eauto.
Qed.

(** X15 — [model_update_matrices] reads the pose buffer and the bones and
    writes the skeleton only, so running it again changes nothing. *)
Theorem model_update_matrices_idempotent (m m' : model_t) :
  model_update_matrices m = Some m' ->
  model_update_matrices m' = Some m' /\
  pose m' = pose m /\
  length (skeleton m') = length (skeleton m) /\
  (forall i, (bones_len m <= i)%nat -> skeleton m' !! i = skeleton m !! i).
Proof.
  intros Hrun.
  destruct (model_update_matrices_ran m m' Hrun) as [Hfit Hord].
  destruct (model_update_matrices_spec m Hfit Hord)
    as (sk & Hsk & Hlen & Hlo & Hhi).
  rewrite Hsk in Hrun. injection Hrun as <-.
  split; [|now repeat split].
  destruct (model_update_matrices_spec (with_skeleton sk m))
    as (sk2 & Hsk2 & Hlen2 & Hlo2 & Hhi2).
  { destruct Hfit as (H1 & H2 & H3 & H4).
    repeat split; simpl; try assumption. rewrite Hlen. exact H4. }
  { exact Hord. }
  rewrite Hsk2. f_equal.
  assert (sk2 = sk) as ->; [|reflexivity].
  apply list_eq. intros i.
  destruct (Nat.lt_ge_cases i (bones_len m)) as [Hi|Hi].
  - destruct (Hlo2 i Hi) as (x & Hx & ->).
    rewrite skinning_matrix_with_skeleton in Hx.
    destruct (Hlo i Hi) as (y & Hy & ->). congruence.
  - exact (Hhi2 i Hi).
Qed.

(** ** What a tick leaves alone *)

(** The three ways a tick returns. *)
Lemma model_update_inv (m m' : model_t) (dt : float) :
  model_update m dt = Some m' ->
  let m0 := with_mesh_list (update_mesh m <$> mesh_list m) m in
  (current_anim m = None /\ m' = m0) \/
  (exists i anim,
     current_anim m = Some i /\ anims m !! i = Some anim /\
     ((playback anim (current_time m) dt = Some Hold /\ m' = m0) \/
      exists t' f' nf w a b p sk,
        playback anim (current_time m) dt = Some (Step t' f' nf w) /\
        at_index (frames m) f' = Some a /\
        at_index (frames m) nf = Some b /\
        mix_pose (with_playback t' f' m0) a b w
        = Some (with_pose p (with_playback t' f' m0)) /\
        length p = length (pose m) /\
        length sk = length (skeleton m) /\
        arrays_fit m /\ ancestor_first m /\
        m' = with_skeleton sk (with_pose p (with_playback t' f' m0)))).
Proof.
  intros Hrun m0. unfold model_update in Hrun. fold m0 in Hrun.
  change (current_anim m0) with (current_anim m) in Hrun.
  destruct (current_anim m) as [i|] eqn:Hcur.
  - right. change (anims m0) with (anims m) in Hrun.
    destruct (anims m !! i) as [anim|] eqn:Hanim; [|discriminate].
    exists i, anim. split; [reflexivity|]. split; [first [assumption | reflexivity]|].
    simpl in Hrun. change (current_time m0) with (current_time m) in Hrun.
    destruct (playback anim (current_time m) dt) as [[|t' f' nf w]|];
      [| |discriminate].
    + left. simpl in Hrun. now injection Hrun as <-.
    + right. simpl in Hrun.
      destruct (at_index (frames m) f') as [a|] eqn:Ha; [|discriminate].
      destruct (at_index (frames m) nf) as [b|] eqn:Hb; [|discriminate].
      simpl in Hrun.
      destruct (mix_pose (with_playback t' f' m0) a b w) as [m2|] eqn:Hmix;
        [|discriminate].
      simpl in Hrun.
      destruct (mix_pose_ran _ _ _ _ _ Hmix) as (Hla & Hlb & Hlp).
      destruct (mix_pose_spec _ a b w Hla Hlb Hlp) as (p & Hp & Hlen & _).
      rewrite Hp in Hmix. injection Hmix as <-.
      destruct (model_update_matrices_ran _ _ Hrun) as [Hfit Hord].
      destruct (model_update_matrices_spec _ Hfit Hord) as (sk & Hsk & Hlsk & _).
      rewrite Hsk in Hrun. injection Hrun as <-.
      exists t', f', nf, w, a, b, p, sk.
      repeat split; try assumption; try reflexivity;
        destruct Hfit as (H1 & H2 & H3 & H4); simpl in *;
        first [assumption | exact Hord].
  - left. split; [reflexivity|]. now injection Hrun as <-.
Qed.

Lemma model_update_same_tables (m m' : model_t) (dt : float) :
  model_update m dt = Some m' -> same_tables m m'.
Proof.
  intros Hrun.
  destruct (model_update_inv m m' dt Hrun)
    as [[_ ->] | (i & anim & _ & _ &
         [[_ ->] | (t' & f' & nf & w & a & b & p & sk &
                    _ & _ & _ & _ & Hp & Hsk & _ & _ & ->)])];
    repeat split; simpl; solve [reflexivity | assumption].
Qed.

Lemma same_tables_well_formed (m m' : model_t) :
  same_tables m m' -> well_formed m -> well_formed m'.
Proof.
  intros (E1 & E2 & E3 & E4 & E5 & E6 & E7 & E8 & E9 & E10 &
          E11 & E12 & E13 & E14) ((F1 & F2 & F3 & F4) & Hord & Hfr).
  split; [|split].
  - unfold arrays_fit. rewrite E1, E2, E6, E13, E14. now repeat split.
  - unfold ancestor_first. rewrite E1, E2. exact Hord.
  - rewrite E2, E5. exact Hfr.
Qed.

Lemma same_tables_trans (m1 m2 m3 : model_t) :
  same_tables m1 m2 -> same_tables m2 m3 -> same_tables m1 m3.
Proof.
  intros (E1 & E2 & E3 & E4 & E5 & E6 & E7 & E8 & E9 & E10 &
          E11 & E12 & E13 & E14)
         (G1 & G2 & G3 & G4 & G5 & G6 & G7 & G8 & G9 & G10 &
          G11 & G12 & G13 & G14).
  unfold same_tables.
  rewrite G1, G2, G3, G4, G5, G6, G7, G8, G9, G10, G11, G12, G13, G14.
  now repeat split.
Qed.


(** X8 — A tick never changes the bones, the clips, the frames, the
    inverse bind matrices, the transform of the model or the clip that is
    selected, and never resizes the pose buffer or the skeleton; the meshes
    it leaves carry the transform of the model. *)
Theorem model_update_keeps_tables (m m' : model_t) (dt : float) :
  model_update m dt = Some m' ->
  same_tables m m' /\
  length (mesh_list m') = length (mesh_list m) /\
  Forall (fun mesh =>
            mesh_position mesh = position m /\
            mesh_rotation mesh = rotation m /\
            mesh_scale mesh = model_scale m /\
            mesh_is_lit mesh = is_lit m) (mesh_list m').
Proof.
  intros Hrun. split; [exact (model_update_same_tables m m' dt Hrun)|].
  assert (Hmesh : mesh_list m' = update_mesh m <$> mesh_list m).
  { destruct (model_update_inv m m' dt Hrun)
      as [[_ ->] | (i & anim & _ & _ &
           [[_ ->] | (t' & f' & nf & w & a & b & p & sk &
                      _ & _ & _ & _ & _ & _ & _ & _ & ->)])]; reflexivity. }
  rewrite Hmesh. split; [apply length_fmap|].
  apply Forall_fmap, Forall_true. intros mesh. now repeat split.
Qed.

(** X9 — Any run of ticks that returns keeps a loaded model well-formed
    and leaves its tables and the selected clip as they were. *)
Theorem model_updates_well_formed (m m' : model_t) (dts : list float) :
  well_formed m ->
  model_updates m dts = Some m' ->
  well_formed m' /\ same_tables m m'.
Proof.
  revert m. induction dts as [|dt dts IH]; intros m Hwf Hrun; simpl in Hrun.
  - injection Hrun as <-. split; [assumption|]. now repeat split.
  - destruct (model_update m dt) as [m1|] eqn:Hone; [|discriminate].
    simpl in Hrun.
    pose proof (model_update_same_tables m m1 dt Hone) as Hsame.
    destruct (IH m1 (same_tables_well_formed m m1 Hsame Hwf) Hrun)
      as [Hwf' Hsame'].
    split; [assumption|].
    exact (same_tables_trans m m1 m' Hsame Hsame').
Qed.

End More.

Section Runs.

Context `{LM : LinMath}.

(** ** A finished clip stays finished *)

(** X6 — Once a clip that does not loop is held (its elapsed frame
    exceeds [last + first]), every later tick is held too, whatever the
    delta times: the playback state, the pose buffer and the skeleton stay
    as they are until another clip is selected. *)
Theorem model_updates_hold (m : model_t) (dts : list float) (i : nat)
    (anim : anim_t) (e : Z) :
  current_anim m = Some i ->
  anims m !! i = Some anim ->
  loop anim = false ->
  F32.to_u32 (F32.mul (current_time m) (rate anim)) = Some e ->
  u32 (last anim + first anim) < e ->
  exists m',
    model_updates m dts = Some m' /\
    current_anim m' = current_anim m /\
    current_time m' = current_time m /\
    current_frame m' = current_frame m /\
    pose m' = pose m /\
    skeleton m' = skeleton m.
Proof.
  revert m. induction dts as [|dt dts IH]; intros m Hcur Hanim Hloop He Hlt.
  - exists m. now repeat split.
  - pose (m1 := with_mesh_list (update_mesh m <$> mesh_list m) m).
    assert (Hone : model_update m dt = Some m1).
    { unfold model_update. fold m1.
      change (current_anim m1) with (current_anim m). rewrite Hcur.
      change (anims m1) with (anims m). rewrite Hanim. simpl.
      change (current_time m1) with (current_time m).
      now rewrite (playback_hold anim _ dt e He Hloop Hlt). }
    destruct (IH m1 Hcur Hanim Hloop He Hlt) as (m' & Hrun & Hrest).
    exists m'. simpl. rewrite Hone. simpl. split; [assumption|].
    exact Hrest.
Qed.

(** ** Clips that start at frame 0 *)

(** X11 — For a clip that starts at frame 0, [current_frame] stays within
    [first, last] over any run of ticks that returns, once it is there. *)
Theorem model_updates_frame_in_clip (m m' : model_t) (dts : list float)
    (i : nat) (anim : anim_t) :
  current_anim m = Some i ->
  anims m !! i = Some anim ->
  first anim = 0 ->
  0 <= last anim < 2 ^ 32 ->
  first anim <= current_frame m <= last anim ->
  model_updates m dts = Some m' ->
  first anim <= current_frame m' <= last anim.
Proof.
  revert m. induction dts as [|dt dts IH];
    intros m Hcur Hanim Hfirst Hlast Hin Hrun; simpl in Hrun.
  - now injection Hrun as <-.
  - destruct (model_update m dt) as [m1|] eqn:Hone; [|discriminate].
    simpl in Hrun.
    destruct (model_update_same_tables m m1 dt Hone)
      as (_ & _ & Ha & _ & _ & _ & Hc & _).
    apply (IH m1); try assumption; [congruence | congruence |].
    destruct (model_update_inv m m1 dt Hone)
      as [[Hnone _] | (i' & anim' & Hcur' & Hanim' &
           [[_ ->] | (t' & f' & nf & w & a & b & p & sk &
                      Hplay & _ & _ & _ & _ & _ & _ & _ & ->)])].
    + congruence.
    + exact Hin.
    + simpl. assert (anim' = anim) as -> by congruence.
      exact (playback_frame_in_clip_from_zero anim _ dt t' f' nf w
               Hfirst Hlast Hplay).
Qed.

(** ** Which frames a tick reads *)



End Runs.

Section Selection.

Context `{LM : LinMath}.

(** ** Selecting a clip *)

(** X3 — The clip selected last wins: selecting an index that is not
    rejected gives the same model whatever was selected just before, since
    the call overwrites [current_anim], [current_time] and
    [current_frame] and nothing else. *)
Theorem model_set_anim_last_wins (m m1 : model_t) (i j : nat) :
  model_set_anim m i = Some m1 ->
  (j <= anims_len m)%nat ->
  model_set_anim m1 j = model_set_anim m j.
Proof.
  intros Hfirst Hj.
  assert (Hshape : exists a t f, m1 = with_playback t f (with_anim a m)).
  { unfold model_set_anim in Hfirst.
    destruct (decide (anims_len m < i)%nat).
    - injection Hfirst as <-.
      now exists None, (current_time m), (current_frame m).
    - simpl in Hfirst. destruct (anims m !! i) as [anim|]; [|discriminate].
      injection Hfirst as <-. now exists (Some i), F32.zero, (first anim). }
  destruct Hshape as (a & t & f & ->).
  unfold model_set_anim. simpl.
  destruct (decide (anims_len m < j)%nat); [lia|].
  now destruct (anims m !! j).
Qed.

(** ** The first tick of a clip *)







(** X7 — An idle model never starts on its own: over any run of ticks
    [current_anim] stays [NULL] and the playback state, the pose buffer
    and the skeleton stay as they are. *)
Theorem model_updates_idle (m : model_t) (dts : list float) :
  current_anim m = None ->
  exists m',
    model_updates m dts = Some m' /\
    current_anim m' = None /\
    current_time m' = current_time m /\
    current_frame m' = current_frame m /\
    pose m' = pose m /\
    skeleton m' = skeleton m.
Proof.
  revert m. induction dts as [|dt dts IH]; intros m Hcur.
  - exists m. now repeat split.
  - simpl. rewrite (model_update_idle m dt Hcur). simpl.
    destruct (IH (with_mesh_list (update_mesh m <$> mesh_list m) m) Hcur)
      as (m' & Hrun & Hrest).
    exists m'. now split.
Qed.

(** ** The mesh list *)

(** X1 — The walk over the mesh list gives every mesh it reaches the
    transform of the model, reaches exactly the meshes before the first
    node without data, and leaves every node from there on as it was. *)
Theorem update_meshes_reached (m : model_t) (n : list_node_t) :
  reached (update_meshes m n) = update_mesh m <$> reached n /\
  node_data (update_meshes m n)
  = (Some <$> (update_mesh m <$> reached n))
    ++ drop (length (reached n)) (node_data n).
Proof.
  induction n as [[mesh|]|[mesh|] next [IH1 IH2]]; simpl;
    try (split; reflexivity).
  split; [now rewrite IH1 | now rewrite IH2].
Qed.

(** ** A new model *)

(** X2 — A new model is idle with [current_time] and [current_frame] at
    0: whatever the allocation held, a tick on it returns, gives every
    mesh of its list position 0, rotation 0, scale 1 and the lit flag, and
    leaves the playback state, the pose buffer and the skeleton as
    created. *)
Theorem model_new_idle (zero3 : vec3) (meshes : list mesh_t)
    (rest : model_t) (dt : float) :
  let m := model_new zero3 meshes rest in
  exists m',
    model_update m dt = Some m' /\
    current_anim m' = None /\
    current_time m' = F32.zero /\
    current_frame m' = 0 /\
    pose m' = pose rest /\
    skeleton m' = skeleton rest /\
    mesh_list m'
    = replicate (length meshes)
        {| mesh_position := zero3; mesh_rotation := zero3;
           mesh_scale := F32.one; mesh_is_lit := 1 |}.
Proof.
  intros m. eexists.
  split; [apply model_update_idle; reflexivity|].
  repeat split. simpl.
  induction meshes as [|mesh meshes IH]; [reflexivity|].
  simpl. now rewrite <- IH.
Qed.

End Selection.

(** * The further theorems at concrete models *)

Module MoreExamples.

Import Sym Fixtures.

Lemma biped_well_formed looping anim time frame :
  well_formed (biped looping anim time frame).
Proof.
  split; [|split].
  - repeat split; simpl; lia.
  - intros i b Hi Hb. simpl in Hi.
    destruct i as [|[|i]]; simpl in Hb; [| |lia];
      injection Hb as <-; simpl; lia.
  - repeat constructor.
Qed.


Lemma model_set_anim_last_wins_witness :
  let m := biped true None F32.zero 0 in
  let m1 := biped true (Some 0%nat) F32.zero 0 in
  (model_set_anim m 0 = Some m1 /\ (0 <= anims_len m)%nat) /\
  model_set_anim m1 0 = model_set_anim m 0.
Proof.
  intros m m1.
  assert (H1 : model_set_anim m 0 = Some m1) by reflexivity.
  assert (H2 : (0 <= anims_len m)%nat) by (simpl; lia).
  split; [now split|].
  exact (model_set_anim_last_wins m m1 0 0 H1 H2).
Defined.



Lemma model_updates_hold_witness :
  let m := biped false (Some 0%nat) (F32.of_Z 3) 2 in
  let clip := {| first := 0; last := 2; rate := F32.one; loop := false |} in
  (current_anim m = Some 0%nat /\ anims m !! 0%nat = Some clip /\
   loop clip = false /\
   F32.to_u32 (F32.mul (current_time m) (rate clip)) = Some 3 /\
   u32 (last clip + first clip) < 3) /\
  exists m',
    model_updates m [F32.one; F32.one] = Some m' /\
    current_anim m' = current_anim m /\
    current_time m' = current_time m /\
    current_frame m' = current_frame m /\
    pose m' = pose m /\
    skeleton m' = skeleton m.
Proof.
  intros m clip.
  assert (Hlt : u32 (last clip + first clip) < 3) by reflexivity.
  split; [exact (conj eq_refl (conj eq_refl (conj eq_refl
                   (conj eq_refl Hlt))))|].
  exact (model_updates_hold m [F32.one; F32.one] 0 clip 3 eq_refl eq_refl
           eq_refl eq_refl Hlt).
Defined.

Lemma model_updates_idle_witness :
  let m := biped true None (F32.of_Z 3) 2 in
  current_anim m = None /\
  exists m',
    model_updates m [F32.one; F32.one] = Some m' /\
    current_anim m' = None /\
    current_time m' = current_time m /\
    current_frame m' = current_frame m /\
    pose m' = pose m /\
    skeleton m' = skeleton m.
Proof.
  intros m. split; [reflexivity|].
  exact (model_updates_idle m [F32.one; F32.one] eq_refl).
Defined.

Lemma biped_three_ticks :
  is_Some (model_updates (biped true (Some 0%nat) F32.zero 0)
             [F32.one; F32.one; F32.one]).
Proof. vm_compute. eauto. Qed.

Lemma model_updates_frame_in_clip_witness :
  let m := biped true (Some 0%nat) F32.zero 0 in
  let clip := {| first := 0; last := 2; rate := F32.one; loop := true |} in
  exists m',
    (current_anim m = Some 0%nat /\ anims m !! 0%nat = Some clip /\
     first clip = 0 /\ 0 <= last clip < 2 ^ 32 /\
     first clip <= current_frame m <= last clip /\
     model_updates m [F32.one; F32.one; F32.one] = Some m') /\
    first clip <= current_frame m' <= last clip.
Proof.
  intros m clip. destruct biped_three_ticks as [m' Hrun]. exists m'.
  assert (Hlast : 0 <= last clip < 2 ^ 32) by (simpl; lia).
  assert (Hin : first clip <= current_frame m <= last clip) by (simpl; lia).
  split; [exact (conj eq_refl (conj eq_refl (conj eq_refl
                   (conj Hlast (conj Hin Hrun)))))|].
  exact (model_updates_frame_in_clip m m' [F32.one; F32.one; F32.one] 0 clip
           eq_refl eq_refl eq_refl Hlast Hin Hrun).
Defined.

Lemma model_updates_well_formed_witness :
  let m := biped true (Some 0%nat) F32.zero 0 in
  exists m',
    (well_formed m /\
     model_updates m [F32.one; F32.one; F32.one] = Some m') /\
    well_formed m' /\ same_tables m m'.
Proof.
  intros m. destruct biped_three_ticks as [m' Hrun]. exists m'.
  assert (Hwf : well_formed m) by apply biped_well_formed.
  split; [exact (conj Hwf Hrun)|].
  exact (model_updates_well_formed m m' _ Hwf Hrun).
Defined.

Lemma biped_one_tick :
  is_Some (model_update (biped true (Some 0%nat) (F32.of_Z 1) 0) F32.one).
Proof. vm_compute. eauto. Qed.

Lemma model_update_keeps_tables_witness :
  let m := biped true (Some 0%nat) (F32.of_Z 1) 0 in
  exists m',
    model_update m F32.one = Some m' /\
    same_tables m m' /\
    length (mesh_list m') = length (mesh_list m) /\
    Forall (fun mesh =>
              mesh_position mesh = position m /\
              mesh_rotation mesh = rotation m /\
              mesh_scale mesh = model_scale m /\
              mesh_is_lit mesh = is_lit m) (mesh_list m').
Proof.
  intros m. destruct biped_one_tick as [m' Hrun]. exists m'.
  split; [exact Hrun|].
  exact (model_update_keeps_tables m m' F32.one Hrun).
Defined.


Lemma chain_matrices :
  is_Some (model_update_matrices chain).
Proof. vm_compute. eauto. Qed.

Lemma model_update_matrices_idempotent_witness :
  exists m',
    model_update_matrices chain = Some m' /\
    model_update_matrices m' = Some m' /\
    pose m' = pose chain.
Proof.
  destruct chain_matrices as [m' Hrun]. exists m'.
  split; [exact Hrun|].
  destruct (model_update_matrices_idempotent chain m' Hrun)
    as (Hagain & Hpose & _).
  now split.
Defined.

(** The walk on a list with a node without data: the mesh behind it keeps
    its transform. *)
Lemma update_meshes_gapped :
  node_data (update_meshes chain gapped)
  = [ Some (update_mesh chain (mesh_of 1));
      Some (update_mesh chain (mesh_of 2)); None; Some (mesh_of 3) ].
Proof. reflexivity. Qed.

(** A bone that names a later bone as its parent. *)
Lemma model_update_matrices_forward_parent :
  model_update_matrices
    (with_skeleton [Id; Id]
       {| mesh_list := []; position := V 0 0 0; rotation := V 0 0 0;
          model_scale := F32.one; is_shadow := 1; is_lit := 1;
          bones := [ {| parent := 1 |}; {| parent := -1 |} ];
          bones_len := 2; anims := []; anims_len := 0; frames := [];
          pose := [entry 0; entry 1];
          inverse_base := [Bind 0; Bind 1]; skeleton := [];
          current_anim := None; current_time := F32.zero;
          current_frame := 0 |})
  = None.
Proof. reflexivity. Qed.

End MoreExamples.
